(** * lfgw: the ACL resolution engine of cmd/lfgw/acl.go

    A shallow embedding of [ACL.toSlice], [ACL.PrepareACL],
    [ACL.getFullaccessACL], [ACLMap.rolesToRawACL], [ACLMap.getACL] and
    [application.loadACL], together with the parts of Go's [unicode/utf8],
    [unicode], [strings] and [regexp] packages they call.

    Go strings are byte sequences: they are modelled by [string] (a list of
    [ascii], one per byte).  A Go function returning [(T, error)] is modelled
    by a function into [T * option E], the error being [None] for [nil].  A
    loop with an early [return] is a [Fixpoint] over the sequence it ranges
    over, named after its function with the suffix [_loop]. *)

From stdpp Require Import gmap strings list fin_maps.
From Stdlib Require Import NArith ZArith Ascii String Lia.

Local Open Scope N_scope.

(** ** unicode/utf8 *)
Module utf8.

Definition RuneError : N := 0xFFFD.
Definition RuneSelf : N := 0x80.

Definition byte (c : ascii) : N := N_of_ascii c.

(** The table [first] of the Go package with [acceptRanges] inlined: for a
    lead byte outside ASCII, the size of the sequence and the range accepted
    for its second byte; [None] is the table's [xx] (an invalid lead byte). *)
Definition first (s0 : N) : option (nat * N * N) :=
  if s0 <? 0xC2 then None
  else if s0 <=? 0xDF then Some (2%nat, 0x80, 0xBF)
  else if s0 =? 0xE0 then Some (3%nat, 0xA0, 0xBF)
  else if s0 <=? 0xEC then Some (3%nat, 0x80, 0xBF)
  else if s0 =? 0xED then Some (3%nat, 0x80, 0x9F)
  else if s0 <=? 0xEF then Some (3%nat, 0x80, 0xBF)
  else if s0 =? 0xF0 then Some (4%nat, 0x90, 0xBF)
  else if s0 <=? 0xF3 then Some (4%nat, 0x80, 0xBF)
  else if s0 =? 0xF4 then Some (4%nat, 0x80, 0x8F)
  else None.

Definition between (lo hi b : N) : bool := (lo <=? b) && (b <=? hi).

(** [locb]..[hicb]: a continuation byte. *)
Definition cont (b : N) : bool := between 0x80 0xBF b.

(** [utf8.DecodeRuneInString]: the first rune of [s] and its width in bytes;
    [(RuneError, 0)] on the empty string, [(RuneError, 1)] on an invalid
    encoding. *)
Definition DecodeRuneInString (s : string) : N * nat :=
  match s with
  | EmptyString => (RuneError, 0%nat)
  | String c0 t1 =>
    let s0 := byte c0 in
    if s0 <? RuneSelf then (s0, 1%nat)
    else
      match first s0, t1 with
      | Some (sz, lo, hi), String c1 t2 =>
        let s1 := byte c1 in
        if negb (between lo hi s1) then (RuneError, 1%nat)
        else if (sz <=? 2)%nat
        then (N.lor (N.shiftl (N.land s0 0x1F) 6) (N.land s1 0x3F), 2%nat)
        else
          match t2 with
          | String c2 t3 =>
            let s2 := byte c2 in
            if negb (cont s2) then (RuneError, 1%nat)
            else if (sz <=? 3)%nat
            then (N.lor (N.shiftl (N.land s0 0x0F) 12)
                    (N.lor (N.shiftl (N.land s1 0x3F) 6) (N.land s2 0x3F)), 3%nat)
            else
              match t3 with
              | String c3 _ =>
                let s3 := byte c3 in
                if negb (cont s3) then (RuneError, 1%nat)
                else (N.lor (N.shiftl (N.land s0 0x07) 18)
                        (N.lor (N.shiftl (N.land s1 0x3F) 12)
                           (N.lor (N.shiftl (N.land s2 0x3F) 6) (N.land s3 0x3F))),
                      4%nat)
              | EmptyString => (RuneError, 1%nat)
              end
          | EmptyString => (RuneError, 1%nat)
          end
      | _, _ => (RuneError, 1%nat)
      end
  end.

(** The decoding loop of [for _, ch := range s]: each step decodes one rune
    at the front and moves on by its width.  [skip] counts the bytes of the
    current rune that are still to be passed over.  Every rune comes with the
    bytes that encode it. *)
Fixpoint decode_from (skip : nat) (s : string) : list (N * string) :=
  match s with
  | EmptyString => []
  | String _ t =>
    match skip with
    | S k => decode_from k t
    | O =>
      let '(r, size) := DecodeRuneInString s in
      (r, substring 0 size s) :: decode_from (size - 1) t
    end
  end.

Definition units (s : string) : list (N * string) := decode_from 0 s.

(** The runes a [range] loop over [s] yields. *)
Definition runes (s : string) : list N := List.map fst (units s).

End utf8.

(** ** unicode *)
Module unicode.

Definition MaxLatin1 : N := 0xFF.

(** [unicode.IsSpace]: the Latin-1 cases spelled out, then the table
    [White_Space] for the rest. *)
Definition IsSpace (r : N) : bool :=
  if r <=? MaxLatin1
  then existsb (N.eqb r) [0x09; 0x0A; 0x0B; 0x0C; 0x0D; 0x20; 0x85; 0xA0]
  else (r =? 0x1680) || utf8.between 0x2000 0x200A r
       || utf8.between 0x2028 0x2029 r || (r =? 0x202F) || (r =? 0x205F)
       || (r =? 0x3000).

End unicode.

(** ** strings *)
Module strings.

Import utf8.

(** [strings.Split(s, sep)] for a separator of one byte: the pieces of [s]
    between the separators, the empty ones included; a string without the
    separator is its own single piece. *)
Fixpoint Split (s : string) (sep : ascii) : list string :=
  match s with
  | EmptyString => [EmptyString]
  | String c t =>
    if Ascii.eqb c sep then EmptyString :: Split t sep
    else
      match Split t sep with
      | piece :: pieces => String c piece :: pieces
      | [] => [String c EmptyString]
      end
  end.

(** [strings.Join(elems, sep)]. *)
Definition Join (elems : list string) (sep : string) : string :=
  String.concat sep elems.

(** [strings.TrimLeft(s, cutset)] for a cutset of one ASCII byte, which Go
    serves by [trimLeftByte]. *)
Fixpoint TrimLeft (s : string) (cutset : ascii) : string :=
  match s with
  | EmptyString => EmptyString
  | String c t => if Ascii.eqb c cutset then TrimLeft t cutset else s
  end.

(** [strings.TrimRight(s, cutset)] for a cutset of one ASCII byte
    ([trimRightByte]). *)
Fixpoint TrimRight (s : string) (cutset : ascii) : string :=
  match s with
  | EmptyString => EmptyString
  | String c t =>
    match TrimRight t cutset with
    | EmptyString => if Ascii.eqb c cutset then EmptyString else String c EmptyString
    | t' => String c t'
    end
  end.

(** [strings.ContainsAny(s, chars)]: some code point of [chars] is a code
    point of [s]. *)
Definition ContainsAny (s chars : string) : bool :=
  existsb (fun c => existsb (N.eqb c) (runes chars)) (runes s).

Fixpoint drop_spaces (us : list (N * string)) : list (N * string) :=
  match us with
  | (r, b) :: rest => if unicode.IsSpace r then drop_spaces rest else us
  | [] => []
  end.

Definition bytes_of (us : list (N * string)) : string :=
  String.concat EmptyString (List.map snd us).

(** [strings.TrimSpace(s)]: [s] without its leading and trailing white space,
    as defined by Unicode ([unicode.IsSpace] on the decoded runes; a byte
    that is not part of a valid encoding decodes to [RuneError], which is not
    white space). *)
Definition TrimSpace (s : string) : string :=
  bytes_of (rev (drop_spaces (rev (drop_spaces (units s))))).

End strings.

(** ** regexp: the syntax check behind [regexp.Compile]

    [regexp.Compile] fails exactly when [syntax.Parse] with the flags
    [syntax.Perl] does.  The Go library is not part of the repository: the
    engine below is stated over any such check (a [Variable] of section
    [ACL]) and its theorems hold whatever the check answers.
    [regexp.Compile] is the instance used to run the engine on concrete
    patterns.  It follows the parser of [regexp/syntax] (Go 1.22) byte by
    byte and keeps, of the parser's stack, what decides acceptance: how many
    [opLeftParen] entries it holds and whether its top is an expression.
    Two things are left out: the limits on the size and the nesting of an
    expression ([ErrLarge], [ErrNestingDepth], the bound of 1000 on nested
    counted repetitions), and, among the Unicode class names, the script
    names, which vary with the Go release ([unicodeTable] knows [Any] and
    the general categories). *)
Module regexp.

Import utf8.

(** [syntax.ErrorCode]. *)
Inductive ErrorCode : Set :=
| ErrInternalError
| ErrInvalidCharClass
| ErrInvalidCharRange
| ErrInvalidEscape
| ErrInvalidNamedCapture
| ErrInvalidPerlOp
| ErrInvalidRepeatOp
| ErrInvalidRepeatSize
| ErrInvalidUTF8
| ErrMissingBracket
| ErrMissingParen
| ErrMissingRepeatArgument
| ErrTrailingBackslash
| ErrUnexpectedParen.

(** [syntax.Error]: the code and the offending part of the expression. *)
Record Error : Set := { Code : ErrorCode; Expr : string }.

Inductive result (A : Type) : Type :=
| Ok (a : A)
| Fail (e : Error).
Arguments Ok {A} a.
Arguments Fail {A} e.

(** [s[n:]] and [s[:len(s)-len(t)]]. *)
Definition from (n : nat) (s : string) : string :=
  substring n (String.length s - n) s.
Definition upto (s t : string) : string :=
  substring 0 (String.length s - String.length t) s.

Definition isc (c x : ascii) : bool := Ascii.eqb c x.
Definition one_of (c : ascii) (set : string) : bool :=
  existsb (Ascii.eqb c) (list_ascii_of_string set).

Definition isdigit (c : ascii) : bool := between 0x30 0x39 (byte c).
Definition isoctal (c : ascii) : bool := between 0x30 0x37 (byte c).
Definition isalnum (r : N) : bool :=
  between 0x30 0x39 r || between 0x41 0x5A r || between 0x61 0x7A r.

(** [unhex]: the value of a hexadecimal digit, if it is one. *)
Definition unhex (r : N) : option N :=
  if between 0x30 0x39 r then Some (r - 0x30)
  else if between 0x61 0x66 r then Some (r - 0x61 + 10)
  else if between 0x41 0x46 r then Some (r - 0x41 + 10)
  else None.

(** [nextRune]. *)
Definition nextRune (s : string) : result (N * string) :=
  let '(c, size) := DecodeRuneInString s in
  if (c =? RuneError) && (size =? 1)%nat
  then Fail {| Code := ErrInvalidUTF8; Expr := s |}
  else Ok (c, from size s).

(** [checkUTF8], with the counter of [utf8.decode_from]. *)
Fixpoint checkUTF8_from (skip : nat) (s : string) : option Error :=
  match s with
  | EmptyString => None
  | String _ t =>
    match skip with
    | S k => checkUTF8_from k t
    | O =>
      let '(c, size) := DecodeRuneInString s in
      if (c =? RuneError) && (size =? 1)%nat
      then Some {| Code := ErrInvalidUTF8; Expr := s |}
      else checkUTF8_from (size - 1) t
    end
  end.
Definition checkUTF8 (s : string) : option Error := checkUTF8_from 0 s.

(** [parser.parseInt]: the digits at the front of [s] as a number ([-1] when
    too big), and what follows them. *)
Fixpoint parseInt_digits (s : string) (n : Z) : Z * string :=
  match s with
  | String c t =>
    if isdigit c
    then
      if (n <? 0)%Z then parseInt_digits t n
      else if (n >=? 100000000)%Z then parseInt_digits t (-1)%Z
      else parseInt_digits t (n * 10 + Z.of_N (byte c) - 0x30)%Z
    else (n, s)
  | EmptyString => (n, s)
  end.

Definition parseInt (s : string) : option (Z * string) :=
  match s with
  | String c t =>
    if negb (isdigit c) then None
    else if isc c "0" && match t with String c1 _ => isdigit c1 | _ => false end then None
    else Some (parseInt_digits s 0%Z)
  | EmptyString => None
  end.

(** [parser.parseRepeat] on a string that starts with an opening brace:
    [min], [max] ([-1] for none) and the rest, or [None] when the braces do
    not hold a repetition count. *)
Definition parseRepeat (s : string) : option (Z * Z * string) :=
  let close (min max : Z) (s : string) :=
    match s with
    | String c rest => if isc c "}" then Some (min, max, rest) else None
    | EmptyString => None
    end in
  match parseInt (from 1 s) with
  | None => None
  | Some (min, s) =>
    match s with
    | EmptyString => None
    | String c s1 =>
      if negb (isc c ",") then close min min s
      else
        match s1 with
        | EmptyString => None
        | String c1 _ =>
          if isc c1 "}" then close min (-1)%Z s1
          else
            match parseInt s1 with
            | None => None
            | Some (max, s2) =>
              if (max <? 0)%Z then close (-1)%Z max s2 else close min max s2
            end
        end
    end
  end.

(** [parser.repeat], for what it checks: [operand] tells whether the top of
    the stack is an expression (the stack is not empty and its top is no
    pseudo-operator).  The result is what follows the operator. *)
Definition repeat (operand : bool) (before after lastRepeat : string) : result string :=
  let after :=
    match after with
    | String c a => if isc c "?" then a else after
    | EmptyString => after
    end in
  if negb (String.eqb lastRepeat EmptyString)
  then Fail {| Code := ErrInvalidRepeatOp; Expr := upto lastRepeat after |}
  else if negb operand
  then Fail {| Code := ErrMissingRepeatArgument; Expr := upto before after |}
  else Ok after.

(** The hexadecimal digits of an escape written with braces. *)
Fixpoint hex_braces (s t : string) (r : N) (nhex : nat) : result (N * string) :=
  match t with
  | EmptyString => Fail {| Code := ErrInvalidEscape; Expr := upto s t |}
  | String _ t' =>
    match nextRune t with
    | Fail e => Fail e
    | Ok (c, rest) =>
      if c =? byte "}"
      then if (nhex =? 0)%nat then Fail {| Code := ErrInvalidEscape; Expr := upto s rest |}
           else Ok (r, rest)
      else
        match unhex c with
        | None => Fail {| Code := ErrInvalidEscape; Expr := upto s rest |}
        | Some v =>
          let r := r * 16 + v in
          if 0x10FFFF <? r then Fail {| Code := ErrInvalidEscape; Expr := upto s rest |}
          else hex_braces s t' r (S nhex)
        end
    end
  end.

(** Up to two more octal digits. *)
Definition octal_more (r : N) (t : string) : N * string :=
  match t with
  | String c1 t1 =>
    if isoctal c1
    then
      let r := r * 8 + byte c1 - 0x30 in
      match t1 with
      | String c2 t2 => if isoctal c2 then (r * 8 + byte c2 - 0x30, t2) else (r, t1)
      | EmptyString => (r, t1)
      end
    else (r, t)
  | EmptyString => (r, t)
  end.

(** [parser.parseEscape] on a string that starts with a backslash. *)
Definition parseEscape (s : string) : result (N * string) :=
  let t := from 1 s in
  match t with
  | EmptyString => Fail {| Code := ErrTrailingBackslash; Expr := EmptyString |}
  | String _ _ =>
    match nextRune t with
    | Fail e => Fail e
    | Ok (c, t) =>
      let invalid (t : string) : result (N * string) :=
        Fail {| Code := ErrInvalidEscape; Expr := upto s t |} in
      if between 0x31 0x37 c
      then
        match t with
        | String c1 _ => if isoctal c1 then Ok (octal_more (c - 0x30) t) else invalid t
        | EmptyString => invalid t
        end
      else if c =? 0x30 then Ok (octal_more 0 t)
      else if c =? byte "x"
      then
        match t with
        | EmptyString => invalid t
        | String _ _ =>
          match nextRune t with
          | Fail e => Fail e
          | Ok (c, t) =>
            if c =? byte "{" then hex_braces s t 0 0
            else
              match nextRune t with
              | Fail e => Fail e
              | Ok (c', t) =>
                match unhex c, unhex c' with
                | Some x, Some y => Ok (x * 16 + y, t)
                | _, _ => invalid t
                end
              end
          end
        end
      else if c =? byte "a" then Ok (7, t)
      else if c =? byte "f" then Ok (12, t)
      else if c =? byte "n" then Ok (10, t)
      else if c =? byte "r" then Ok (13, t)
      else if c =? byte "t" then Ok (9, t)
      else if c =? byte "v" then Ok (11, t)
      else if (c <? RuneSelf) && negb (isalnum c) then Ok (c, t)
      else invalid t
    end
  end.

(** The names [unicodeTable] resolves: [Any] and the general categories. *)
Definition unicodeTable (name : string) : bool :=
  existsb (String.eqb name)
    ["Any"; "C"; "Cc"; "Cf"; "Co"; "Cs"; "L"; "Ll"; "Lm"; "Lo"; "Lt"; "Lu";
     "M"; "Mc"; "Me"; "Mn"; "N"; "Nd"; "Nl"; "No"; "P"; "Pc"; "Pd"; "Pe";
     "Pf"; "Pi"; "Po"; "Ps"; "S"; "Sc"; "Sk"; "Sm"; "So"; "Z"; "Zl"; "Zp";
     "Zs"]%string.

(** [parser.parseUnicodeClass] on a string that starts with a backslash and
    [p] or [P]: what follows the class. *)
Definition parseUnicodeClass (s : string) : result string :=
  match nextRune (from 2 s) with
  | Fail e => Fail e
  | Ok (c, t) =>
    let known (seq name t : string) : result string :=
      let name :=
        match name with
        | String c0 n => if isc c0 "^" then n else name
        | EmptyString => name
        end in
      if unicodeTable name then Ok t
      else Fail {| Code := ErrInvalidCharRange; Expr := seq |} in
    if negb (c =? byte "{")
    then let seq := upto s t in known seq (from 2 seq) t
    else
      match index 0 "}" s with
      | None =>
        match checkUTF8 s with
        | Some e => Fail e
        | None => Fail {| Code := ErrInvalidCharRange; Expr := s |}
        end
      | Some stop =>
        let name := substring 3 (stop - 3) s in
        match checkUTF8 name with
        | Some e => Fail e
        | None => known (substring 0 (stop + 1) s) name (from (stop + 1) s)
        end
      end
  end.

(** The keys of [perlGroup] and of [posixGroup]. *)
Definition perlGroup (name : string) : bool :=
  existsb (String.eqb name) ["\d"; "\D"; "\s"; "\S"; "\w"; "\W"]%string.

Definition posixGroup (name : string) : bool :=
  existsb (String.eqb name)
    ["[:alnum:]"; "[:^alnum:]"; "[:alpha:]"; "[:^alpha:]"; "[:ascii:]";
     "[:^ascii:]"; "[:blank:]"; "[:^blank:]"; "[:cntrl:]"; "[:^cntrl:]";
     "[:digit:]"; "[:^digit:]"; "[:graph:]"; "[:^graph:]"; "[:lower:]";
     "[:^lower:]"; "[:print:]"; "[:^print:]"; "[:punct:]"; "[:^punct:]";
     "[:space:]"; "[:^space:]"; "[:upper:]"; "[:^upper:]"; "[:word:]";
     "[:^word:]"; "[:xdigit:]"; "[:^xdigit:]"]%string.

(** [parser.parseClassChar]. *)
Definition parseClassChar (s wholeClass : string) : result (N * string) :=
  match s with
  | EmptyString => Fail {| Code := ErrMissingBracket; Expr := wholeClass |}
  | String c _ => if isc c "\" then parseEscape s else nextRune s
  end.

(** The loop of [parser.parseClass] over the inside of a bracket expression
    [s]; [first] is true before its first item.  The result is what follows
    the closing bracket. *)
Fixpoint parseClass_loop (fuel : nat) (s t : string) (first : bool) : result string :=
  match fuel with
  | O => Fail {| Code := ErrInternalError; Expr := EmptyString |}
  | S fuel =>
    if match t with String c _ => isc c "]" && negb first | EmptyString => false end
    then Ok (from 1 t)
    else
      let named :=
        if prefix "[:" t && (2 <? String.length t)%nat
        then
          match index 0 ":]" (from 2 t) with
          | Some i => Some (substring 0 (i + 4) t, from (i + 4) t)
          | None => None
          end
        else None in
      match named with
      | Some (name, rest) =>
        if posixGroup name then parseClass_loop fuel s rest false
        else Fail {| Code := ErrInvalidCharRange; Expr := name |}
      | None =>
        if prefix "\p" t || prefix "\P" t
        then
          match parseUnicodeClass t with
          | Fail e => Fail e
          | Ok rest => parseClass_loop fuel s rest false
          end
        else if perlGroup (substring 0 2 t)
        then parseClass_loop fuel s (from 2 t) false
        else
          match parseClassChar t s with
          | Fail e => Fail e
          | Ok (lo, t1) =>
            match t1 with
            | String c0 (String c1 _ as t2) =>
              if isc c0 "-" && negb (isc c1 "]")
              then
                match parseClassChar t2 s with
                | Fail e => Fail e
                | Ok (hi, t3) =>
                  if hi <? lo
                  then Fail {| Code := ErrInvalidCharRange; Expr := upto t t3 |}
                  else parseClass_loop fuel s t3 false
                end
              else parseClass_loop fuel s t1 false
            | _ => parseClass_loop fuel s t1 false
            end
          end
      end
  end.

(** [parser.parseClass] on a string that starts with an opening bracket. *)
Definition parseClass (s : string) : result string :=
  let t := from 1 s in
  let t := match t with String c t' => if isc c "^" then t' else t | EmptyString => t end in
  parseClass_loop (S (String.length s)) s t true.

(** [isValidCaptureName]. *)
Definition isValidCaptureName (name : string) : bool :=
  negb (String.eqb name EmptyString)
  && forallb (fun c => (c =? byte "_") || isalnum c) (runes name).

(** The flag loop of [parser.parsePerlFlags]: [sign] is true once a minus
    was read, [sawFlag] once a flag follows it.  The result is what follows
    the flags and whether they open a group. *)
Fixpoint parsePerlFlags_loop (s t : string) (sign sawFlag : bool) : result (string * bool) :=
  match t with
  | EmptyString => Fail {| Code := ErrInvalidPerlOp; Expr := upto s t |}
  | String _ t' =>
    match nextRune t with
    | Fail e => Fail e
    | Ok (c, rest) =>
      let stop : result (string * bool) :=
        Fail {| Code := ErrInvalidPerlOp; Expr := upto s rest |} in
      if existsb (N.eqb c) [byte "i"; byte "m"; byte "s"; byte "U"]
      then parsePerlFlags_loop s t' sign true
      else if c =? byte "-"
      then if sign then stop else parsePerlFlags_loop s t' true false
      else if (c =? byte ":") || (c =? byte ")")
      then if sign && negb sawFlag then stop else Ok (rest, c =? byte ":")
      else stop
    end
  end.

(** [parser.parsePerlFlags] on a string that starts with an opening
    parenthesis and a question mark. *)
Definition parsePerlFlags (s : string) : result (string * bool) :=
  let t := s in
  let startsWithP := (4 <? String.length t)%nat && String.eqb (substring 2 2 t) "P<" in
  let startsWithName := (3 <? String.length t)%nat && String.eqb (substring 2 1 t) "<" in
  if startsWithP || startsWithName
  then
    let exprStartPos := if startsWithName then 3%nat else 4%nat in
    match index 0 ">" t with
    | None =>
      match checkUTF8 t with
      | Some e => Fail e
      | None => Fail {| Code := ErrInvalidNamedCapture; Expr := s |}
      end
    | Some stop =>
      let capture := substring 0 (stop + 1) t in
      let name := substring exprStartPos (stop - exprStartPos) t in
      match checkUTF8 name with
      | Some e => Fail e
      | None =>
        if negb (isValidCaptureName name)
        then Fail {| Code := ErrInvalidNamedCapture; Expr := capture |}
        else Ok (from (stop + 1) t, true)
      end
    end
  else parsePerlFlags_loop s (from 2 t) false false.

(** What [strings.Cut(s, "\E")] returns: the text before the first [\E] and
    the text after it, or all of [s] and nothing. *)
Definition cut_E (s : string) : string * string :=
  match index 0 "\E" s with
  | Some i => (substring 0 i s, from (i + 2) s)
  | None => (s, EmptyString)
  end.

(** The main loop of [syntax.parse]: [depth] counts the [opLeftParen]
    entries of the stack, [operand] tells whether its top is an expression,
    [lastRepeat] is the text from the last repetition operator when that
    operator was the previous item. *)
Fixpoint parse_loop (fuel : nat) (wholeRegexp t : string) (depth : nat)
    (operand : bool) (lastRepeat : string) : option Error :=
  match fuel with
  | O => Some {| Code := ErrInternalError; Expr := EmptyString |}
  | S fuel =>
    let continue := parse_loop fuel wholeRegexp in
    match t with
    | EmptyString =>
      if (depth =? 0)%nat then None
      else Some {| Code := ErrMissingParen; Expr := wholeRegexp |}
    | String c t1 =>
      if isc c "("
      then
        if prefix "(?" t
        then
          match parsePerlFlags t with
          | Fail e => Some e
          | Ok (rest, true) => continue rest (S depth) false EmptyString
          | Ok (rest, false) => continue rest depth operand EmptyString
          end
        else continue t1 (S depth) false EmptyString
      else if isc c "|" then continue t1 depth false EmptyString
      else if isc c ")"
      then
        match depth with
        | O => Some {| Code := ErrUnexpectedParen; Expr := wholeRegexp |}
        | S depth => continue t1 depth true EmptyString
        end
      else if one_of c "^$." then continue t1 depth true EmptyString
      else if isc c "["
      then
        match parseClass t with
        | Fail e => Some e
        | Ok rest => continue rest depth true EmptyString
        end
      else if one_of c "*+?"
      then
        match repeat operand t t1 lastRepeat with
        | Fail e => Some e
        | Ok after => continue after depth true t
        end
      else if isc c "{"
      then
        match parseRepeat t with
        | None => continue t1 depth true EmptyString
        | Some (min, max, after) =>
          if ((min <? 0) || (1000 <? min) || (1000 <? max)
              || ((0 <=? max) && (max <? min)))%Z
          then Some {| Code := ErrInvalidRepeatSize; Expr := upto t after |}
          else
            match repeat operand t after lastRepeat with
            | Fail e => Some e
            | Ok after => continue after depth true t
            end
        end
      else if isc c "\"
      then
        let c1 := substring 1 1 t in
        if existsb (String.eqb c1) ["A"; "b"; "B"; "z"]%string
        then continue (from 2 t) depth true EmptyString
        else if String.eqb c1 "C"
        then Some {| Code := ErrInvalidEscape; Expr := substring 0 2 t |}
        else if String.eqb c1 "Q"
        then
          let '(lit, rest) := cut_E (from 2 t) in
          match checkUTF8 lit with
          | Some e => Some e
          | None =>
            continue rest depth (operand || negb (String.eqb lit EmptyString)) EmptyString
          end
        else if String.eqb c1 "p" || String.eqb c1 "P"
        then
          match parseUnicodeClass t with
          | Fail e => Some e
          | Ok rest => continue rest depth true EmptyString
          end
        else if perlGroup (substring 0 2 t)
        then continue (from 2 t) depth true EmptyString
        else
          match parseEscape t with
          | Fail e => Some e
          | Ok (_, rest) => continue rest depth true EmptyString
          end
      else
        match nextRune t with
        | Fail e => Some e
        | Ok (_, rest) => continue rest depth true EmptyString
        end
    end
  end.

(** [regexp.Compile], reduced to its error. *)
Definition Compile (expr : string) : option Error :=
  parse_loop (S (String.length expr)) expr expr 0 false EmptyString.

End regexp.

(** ** metricsql *)
Module metricsql.

(** [metricsql.LabelFilter]. *)
Record LabelFilter : Set := {
  Label : string;
  Value : string;
  IsNegative : bool;
  IsRegexp : bool
}.

End metricsql.

(** ** cmd/lfgw/acl.go *)

(** The errors acl.go builds with [fmt.Errorf], one constructor per format
    string with the operands it formats, and the errors it passes on from
    [os.ReadFile] and [yaml.Unmarshal]. *)
Inductive error : Set :=
| ErrRoleEmptyRawACL (role : string)
    (* "%s role contains empty rawACL" *)
| ErrConstructedEmptyRawACL
    (* "constructed empty rawACL" *)
| ErrNoMatchingRoles
    (* "no matching roles found" *)
| ErrSpacesWithinElements (str : string)
    (* "line should not contain spaces within individual elements (%q)" *)
| ErrNoValidElement (str : string)
    (* "line has to contain at least one valid element (%q)" *)
| ErrRegexp (err : regexp.Error) (value rawACL : string)
    (* "%s in %q (converted from %q)" *)
| ErrReadFile (msg : string)
| ErrUnmarshal (msg : string).

(** [type ACL struct]. *)
Record ACL : Set := {
  Fullaccess : bool;
  LabelFilter : metricsql.LabelFilter;
  RawACL : string
}.

(** [type ACLMap map[string]ACL]. *)
Abbreviation ACLMap := (gmap string ACL).

(** The zero value [ACL{}]. *)
Definition ACL_zero : ACL :=
  {| Fullaccess := false;
     LabelFilter := {| metricsql.Label := EmptyString; metricsql.Value := EmptyString;
                       metricsql.IsNegative := false; metricsql.IsRegexp := false |};
     RawACL := EmptyString |}.

(** The body of the [range strings.Split(str, ",")] loop of [toSlice]. *)
Fixpoint toSlice_loop (str : string) (pieces buffer : list string)
  : list string * option error :=
  match pieces with
  | [] => (buffer, None)
  | s :: pieces =>
    let s := strings.TrimSpace s in
    if existsb unicode.IsSpace (utf8.runes s)
    then ([], Some (ErrSpacesWithinElements str))
    else if negb (String.eqb s "") then toSlice_loop str pieces (buffer ++ [s])
    else toSlice_loop str pieces buffer
  end.

(** [ACL.toSlice]. *)
Definition toSlice (str : string) : list string * option error :=
  match toSlice_loop str (strings.Split str ",") [] with
  | (_, Some err) => ([], Some err)
  | (buffer, None) =>
    if (List.length buffer =? 0)%nat then ([], Some (ErrNoValidElement str))
    else (buffer, None)
  end.

(** [ACL.getFullaccessACL]. *)
Definition getFullaccessACL : ACL :=
  {| Fullaccess := true;
     LabelFilter := {| metricsql.Label := "namespace"; metricsql.Value := ".*";
                       metricsql.IsRegexp := true; metricsql.IsNegative := false |};
     RawACL := ".*" |}.

(** The characters that make a single element a regular expression. *)
Definition metachars : string := ".+*?^$()[]{}|\".

(** The four trims [PrepareACL] applies to a single element, in its order. *)
Definition trim_anchors (b0 : string) : string :=
  let b0 := strings.TrimLeft b0 "^" in
  let b0 := strings.TrimLeft b0 "(" in
  let b0 := strings.TrimRight b0 "$" in
  strings.TrimRight b0 ")".

Section ACL.

(** [regexp.Compile], reduced to its error: the Go library is not part of the
    repository, so the engine is stated over whatever it answers. *)
Variable regexp_Compile : string -> option regexp.Error.

(** [ACL.PrepareACL]. *)
Definition PrepareACL (rawACL : string) : ACL * option error :=
  let lf := {| metricsql.Label := "namespace"; metricsql.Value := "";
               metricsql.IsNegative := false; metricsql.IsRegexp := false |} in
  match toSlice rawACL with
  | (_, Some err) => (ACL_zero, Some err)
  | (buffer, None) =>
    if existsb (String.eqb ".*") buffer then (getFullaccessACL, None)
    else
      let '(buffer, lf) :=
        match buffer with
        | [b0] =>
          if strings.ContainsAny b0 metachars
          then
            let b0 := trim_anchors b0 in
            ([b0], {| metricsql.Label := metricsql.Label lf; metricsql.Value := b0;
                      metricsql.IsNegative := metricsql.IsNegative lf;
                      metricsql.IsRegexp := true |})
          else
            ([b0], {| metricsql.Label := metricsql.Label lf; metricsql.Value := b0;
                      metricsql.IsNegative := metricsql.IsNegative lf;
                      metricsql.IsRegexp := metricsql.IsRegexp lf |})
        | _ =>
          (buffer, {| metricsql.Label := metricsql.Label lf;
                      metricsql.Value := strings.Join buffer "|";
                      metricsql.IsNegative := metricsql.IsNegative lf;
                      metricsql.IsRegexp := true |})
        end in
      match (if metricsql.IsRegexp lf then regexp_Compile (metricsql.Value lf) else None) with
      | Some err => (ACL_zero, Some (ErrRegexp err (metricsql.Value lf) rawACL))
      | None =>
        ({| Fullaccess := false; LabelFilter := lf;
            RawACL := strings.Join buffer ", " |}, None)
      end
  end.

(** The [range roles] loop of [rolesToRawACL]. *)
Fixpoint rolesToRawACL_loop (a : ACLMap) (roles rawACLs : list string)
  : list string * option error :=
  match roles with
  | [] => (rawACLs, None)
  | role :: roles =>
    match a !! role with
    | Some acl =>
      if String.eqb (RawACL acl) "" then ([], Some (ErrRoleEmptyRawACL role))
      else rolesToRawACL_loop a roles (rawACLs ++ [RawACL acl])
    | None => rolesToRawACL_loop a roles (rawACLs ++ [role])
    end
  end.

(** [ACLMap.rolesToRawACL]. *)
Definition rolesToRawACL (a : ACLMap) (roles : list string) : string * option error :=
  match rolesToRawACL_loop a roles [] with
  | (_, Some err) => ("", Some err)
  | (rawACLs, None) =>
    let rawACL := strings.Join rawACLs ", " in
    if String.eqb rawACL "" then ("", Some ErrConstructedEmptyRawACL)
    else (rawACL, None)
  end.

(** The [range oidcRoles] loop of [getACL]: it either returns the ACL of the
    first known full-access role ([inl]) or runs to its end with the known
    and the unknown roles it collected ([inr]). *)
Fixpoint getACL_loop (a : ACLMap) (oidcRoles roles assumedRoles : list string)
  : ACL + list string * list string :=
  match oidcRoles with
  | [] => inr (roles, assumedRoles)
  | role :: oidcRoles =>
    match a !! role with
    | Some acl =>
      if Fullaccess acl then inl acl
      else getACL_loop a oidcRoles (roles ++ [role]) assumedRoles
    | None => getACL_loop a oidcRoles roles (assumedRoles ++ [role])
    end
  end.

(** [ACLMap.getACL]. *)
Definition getACL (a : ACLMap) (oidcRoles : list string) (assumedRolesEnabled : bool)
  : ACL * option error :=
  match getACL_loop a oidcRoles [] [] with
  | inl acl => (acl, None)
  | inr (roles, assumedRoles) =>
    let roles := if assumedRolesEnabled then roles ++ assumedRoles else roles in
    if (List.length roles =? 0)%nat then (ACL_zero, Some ErrNoMatchingRoles)
    else
      match (match roles with [role] => a !! role | _ => None end) with
      | Some acl => (acl, None)
      | None =>
        match rolesToRawACL a roles with
        | (_, Some err) => (ACL_zero, Some err)
        | (rawACL, None) =>
          match PrepareACL rawACL with
          | (_, Some err) => (ACL_zero, Some err)
          | (acl, None) => (acl, None)
          end
        end
      end
  end.

(** The [range aclYaml] loop of [loadACL], over the entries of the map in the
    order the loop visits them. *)
Fixpoint loadACL_loop (aclYaml : list (string * string)) (aclMap : ACLMap)
  : ACLMap * option error :=
  match aclYaml with
  | [] => (aclMap, None)
  | (role, rawACL) :: aclYaml =>
    match PrepareACL rawACL with
    | (_, Some err) => (∅, Some err)
    | (acl, None) => loadACL_loop aclYaml (<[role := acl]> aclMap)
    end
  end.

(** [os.ReadFile] and [yaml.Unmarshal] into a [map[string]string]; the map is
    given by its entries in the order a [range] over it visits them. *)
Variable os_ReadFile : string -> string * option string.
Variable yaml_Unmarshal : string -> list (string * string) * option string.

(** [application.loadACL]. *)
Definition loadACL (path : string) : ACLMap * option error :=
  let aclMap : ACLMap := ∅ in
  match os_ReadFile path with
  | (_, Some err) => (aclMap, Some (ErrReadFile err))
  | (yamlFile, None) =>
    match yaml_Unmarshal yamlFile with
    | (_, Some err) => (aclMap, Some (ErrUnmarshal err))
    | (aclYaml, None) => loadACL_loop aclYaml aclMap
    end
  end.

End ACL.

(** ** The vocabulary of the specification *)

(** A role is known when it is a key of the registry. *)
Definition is_known (a : ACLMap) (role : string) : bool :=
  match a !! role with Some _ => true | None => false end.

Definition known_roles (a : ACLMap) (roles : list string) : list string :=
  List.filter (is_known a) roles.

Definition unknown_roles (a : ACLMap) (roles : list string) : list string :=
  List.filter (fun role => negb (is_known a role)) roles.

(** The working role list of the resolver: the known roles in input order,
    followed by the unknown ones when assumed roles are enabled. *)
Definition working_list (a : ACLMap) (roles : list string) (assumedRolesEnabled : bool)
  : list string :=
  known_roles a roles ++ (if assumedRolesEnabled then unknown_roles a roles else []).

(** The stored ACL of the first role of the list that the registry maps to a
    full-access ACL. *)
Fixpoint first_fullaccess (a : ACLMap) (roles : list string) : option ACL :=
  match roles with
  | [] => None
  | role :: roles =>
    match a !! role with
    | Some acl => if Fullaccess acl then Some acl else first_fullaccess a roles
    | None => first_fullaccess a roles
    end
  end.

(** A role list with its duplicates removed: every role at its first
    occurrence. *)
Fixpoint dedup_from (seen roles : list string) : list string :=
  match roles with
  | [] => []
  | role :: roles =>
    if existsb (String.eqb role) seen then dedup_from seen roles
    else role :: dedup_from (role :: seen) roles
  end.

Definition dedup (roles : list string) : list string := dedup_from [] roles.

(** The pieces of a raw pattern between its commas, trimmed, the empty ones
    dropped: the element sequence of the pattern, whether or not [toSlice]
    accepts it. *)
Definition elements (str : string) : list string :=
  List.filter (fun s => negb (String.eqb s ""))
    (List.map strings.TrimSpace (strings.Split str ",")).


(** No rune of the string is white space (the test [toSlice] makes on a
    trimmed piece), and no byte of it is a comma. *)
Definition spaceless (s : string) : Prop :=
  existsb unicode.IsSpace (utf8.runes s) = false.

Definition commaless (s : string) : Prop :=
  ~ In ","%char (list_ascii_of_string s).

(** What [toSlice] lets through: an element is not empty, holds no white
    space and no comma. *)
Definition clean (e : string) : Prop :=
  e <> ""%string /\ spaceless e /\ commaless e.



(** What [getACL] does once its loop has run to the end, on the role list it
    is left with. *)
Definition resolve_working (regexp_Compile : string -> option regexp.Error)
    (a : ACLMap) (roles : list string) : ACL * option error :=
  if (List.length roles =? 0)%nat then (ACL_zero, Some ErrNoMatchingRoles)
  else
    match (match roles with [role] => a !! role | _ => None end) with
    | Some acl => (acl, None)
    | None =>
      match rolesToRawACL a roles with
      | (_, Some err) => (ACL_zero, Some err)
      | (rawACL, None) =>
        match PrepareACL regexp_Compile rawACL with
        | (_, Some err) => (ACL_zero, Some err)
        | (acl, None) => (acl, None)
        end
      end
    end.

(** The test of the loop of [toSlice] on one piece: after trimming, a rune
    of the piece is white space. *)
Definition has_inner_space (piece : string) : bool :=
  existsb unicode.IsSpace (utf8.runes (strings.TrimSpace piece)).

(** What a role contributes to the composite raw pattern of
    [rolesToRawACL]: the raw form of its stored ACL when it is a key of the
    registry, its own name otherwise. *)
Definition contribution (a : ACLMap) (role : string) : string :=
  match a !! role with
  | Some acl => RawACL acl
  | None => role
  end.

(** The first role of the list that is a key of the registry with an empty
    raw form. *)
Fixpoint first_empty (a : ACLMap) (roles : list string) : option string :=
  match roles with
  | [] => None
  | role :: roles =>
    match a !! role with
    | Some acl => if String.eqb (RawACL acl) "" then Some role else first_empty a roles
    | None => first_empty a roles
    end
  end.

(** The ACL [PrepareACL] builds when it does not return the full-access
    one. *)
Definition restricted_ACL (isRegexp : bool) (value rawACL : string) : ACL :=
  {| Fullaccess := false;
     LabelFilter := {| metricsql.Label := "namespace"; metricsql.Value := value;
                       metricsql.IsNegative := false; metricsql.IsRegexp := isRegexp |};
     RawACL := rawACL |}.

(** An ACL without full access, as the tests write it. *)
Definition test_ACL (isRegexp : bool) (value rawACL : string) : ACL :=
  {| Fullaccess := false;
     LabelFilter := {| metricsql.Label := "namespace"; metricsql.Value := value;
                       metricsql.IsRegexp := isRegexp; metricsql.IsNegative := false |};
     RawACL := rawACL |}.

(** The registry of the tests of [rolesToRawACL] and [getACL]. *)
Definition test_ACLMap : ACLMap :=
  <[ "admin"%string := getFullaccessACL ]>
  (<[ "multiple-values"%string := test_ACL true "ku.*|min.*" "ku.*, min.*" ]>
   {[ "single-value"%string := test_ACL false "default" "default" ]}).

(** The files of the tests of [loadACL], read and parsed: the entries that
    load, and a file with an entry that does not. *)
Definition acl_yaml : list (string * string) :=
  [("admin", ".*"); ("multiple-values", "ku.*, min.*"); ("single-value", "default")]%string.

Definition bad_acl_yaml : list (string * string) :=
  [("admin", ".*"); ("test-role", "a b"); ("single-value", "default")]%string.

(** ** The tests of the repository, run on the embedding *)

(** [TestACL_ToSlice]. *)
Example TestACL_ToSlice :
  toSlice "a, b" = (["a"; "b"]%string, None)
  /\ toSlice "a, , b" = (["a"; "b"]%string, None)
  /\ toSlice "a" = (["a"%string], None)
  /\ (toSlice "a b").2 <> None
  /\ (toSlice "").2 <> None.
Proof. repeat split; done. Qed.

(** [TestACL_PrepareACL]. *)
Example TestACL_PrepareACL :
  PrepareACL regexp.Compile ".*" = (getFullaccessACL, None)
  /\ PrepareACL regexp.Compile "min.*, .*, stolon" = (getFullaccessACL, None)
  /\ PrepareACL regexp.Compile "minio" = (test_ACL false "minio" "minio", None)
  /\ PrepareACL regexp.Compile "min.*" = (test_ACL true "min.*" "min.*", None)
  /\ PrepareACL regexp.Compile "^(min.*)$" = (test_ACL true "min.*" "min.*", None)
  /\ PrepareACL regexp.Compile "minio, stolon"
     = (test_ACL true "minio|stolon" "minio, stolon", None)
  /\ PrepareACL regexp.Compile "min.*, stolon"
     = (test_ACL true "min.*|stolon" "min.*, stolon", None)
  /\ PrepareACL regexp.Compile ".+" = (test_ACL true ".+" ".+", None)
  /\ PrepareACL regexp.Compile "a,b" = (test_ACL true "a|b" "a, b", None)
  /\ (PrepareACL regexp.Compile "[").2 <> None.
Proof. repeat split; done. Qed.

(** [TestACL_rolesToRawACL]. *)
Example TestACL_rolesToRawACL :
  (rolesToRawACL test_ACLMap []).2 <> None
  /\ rolesToRawACL test_ACLMap ["multiple-values"%string] = ("ku.*, min.*"%string, None)
  /\ rolesToRawACL test_ACLMap ["multiple-values"; "single-value"]%string
     = ("ku.*, min.*, default"%string, None)
  /\ (rolesToRawACL ({[ "empty-acl"%string := ACL_zero ]} : ACLMap)
        ["empty-acl"%string]).2 <> None.
Proof. repeat split; done. Qed.

(** [TestACL_GetACL]. *)
Example TestACL_GetACL :
  (getACL regexp.Compile test_ACLMap [] false).2 <> None
  /\ (getACL regexp.Compile test_ACLMap ["unknown-role"%string] false).2 <> None
  /\ getACL regexp.Compile test_ACLMap ["single-value"%string] false
     = (test_ACL false "default" "default", None)
  /\ getACL regexp.Compile test_ACLMap ["admin"; "multiple-values"]%string false
     = (getFullaccessACL, None)
  /\ getACL regexp.Compile test_ACLMap
       ["single-value"; "multiple-values"; "unknown-role"]%string false
     = (test_ACL true "default|ku.*|min.*" "default, ku.*, min.*", None)
  /\ getACL regexp.Compile test_ACLMap ["unknown-role"%string] true
     = (test_ACL false "unknown-role" "unknown-role", None)
  /\ getACL regexp.Compile test_ACLMap
       ["multiple-values"; "single-value"; "unknown-role"]%string true
     = (test_ACL true "ku.*|min.*|default|unknown-role"
          "ku.*, min.*, default, unknown-role", None)
  /\ getACL regexp.Compile test_ACLMap
       ["multiple-values"; "admin"; "unknown-role"]%string true
     = (getFullaccessACL, None).
Proof. repeat split; done. Qed.

(** [TestACL_LoadACL], on the files as [yaml.Unmarshal] delivers them. *)
Example TestACL_LoadACL :
  loadACL regexp.Compile (fun _ => (""%string, None))
    (fun _ => ([("admin", ".*")]%string, None)) "acl.yaml"
  = ({[ "admin"%string := getFullaccessACL ]}, None)
  /\ loadACL regexp.Compile (fun _ => (""%string, None))
       (fun _ => ([("implicit-admin", "ku.*, .*, min.*")]%string, None)) "acl.yaml"
     = ({[ "implicit-admin"%string := getFullaccessACL ]}, None)
  /\ loadACL regexp.Compile (fun _ => (""%string, None))
       (fun _ => ([("multiple-values", "ku.*, min.*")]%string, None)) "acl.yaml"
     = ({[ "multiple-values"%string := test_ACL true "ku.*|min.*" "ku.*, min.*" ]}, None)
  /\ loadACL regexp.Compile (fun _ => (""%string, None))
       (fun _ => ([("single-value", "default")]%string, None)) "acl.yaml"
     = ({[ "single-value"%string := test_ACL false "default" "default" ]}, None)
  /\ (loadACL regexp.Compile (fun _ => (""%string, None))
        (fun _ => ([("test-role", "")]%string, None)) "acl.yaml").2 <> None
  /\ (loadACL regexp.Compile (fun _ => (""%string, None))
        (fun _ => ([("test-role", "a b")]%string, None)) "acl.yaml").2 <> None.
Proof. repeat split; done. Qed.

(** ** Strings, runes and the element parser *)

Section Strings.

Import utf8 strings.

Lemma append_String (c : ascii) (s t : string) :
  String c s +:+ t = String c (s +:+ t).
Proof. reflexivity. Qed.

Lemma append_empty_l (s : string) : "" +:+ s = s.
Proof. reflexivity. Qed.

Lemma append_empty_r (s : string) : s +:+ "" = s.
Proof. induction s; [done|]. rewrite append_String. congruence. Qed.

Lemma bytes_of_cons (u : N * string) (us : list (N * string)) :
  bytes_of (u :: us) = u.2 +:+ bytes_of us.
Proof.
  unfold bytes_of. simpl. destruct us as [|u' us']; simpl; [by rewrite append_empty_r|done].
Qed.

Lemma DecodeRuneInString_size (c : ascii) (t : string) :
  (1 <= (DecodeRuneInString (String c t)).2 <= S (String.length t))%nat.
Proof.
  unfold DecodeRuneInString.
  repeat (case_match; simpl; try lia).
Qed.

Lemma substring_decode_from (s : string) (k : nat) :
  (k <= String.length s)%nat ->
  substring 0 k s +:+ bytes_of (decode_from k s) = s.
Proof.
  revert k. induction s as [|c t IH]; intros k Hk.
  - destruct k; simpl in *; [done|lia].
  - destruct k as [|k].
    + cbn [decode_from substring].
      pose proof (DecodeRuneInString_size c t) as Hsize.
      destruct (DecodeRuneInString (String c t)) as [r size]. simpl in Hsize.
      destruct size as [|m]; [lia|].
      rewrite bytes_of_cons. cbn [snd substring].
      replace (S m - 1)%nat with m by lia.
      rewrite append_empty_l, append_String. f_equal. apply IH. lia.
    + cbn [decode_from substring]. rewrite append_String. f_equal. apply IH. simpl in Hk. lia.
Qed.

Lemma bytes_of_units (s : string) : bytes_of (units s) = s.
Proof.
  pose proof (substring_decode_from s 0 ltac:(lia)) as H.
  by destruct s.
Qed.

Lemma drop_spaces_spaceless (us : list (N * string)) :
  existsb unicode.IsSpace (List.map fst us) = false -> drop_spaces us = us.
Proof.
  destruct us as [|[r b] rest]; simpl; [done|].
  by destruct (unicode.IsSpace r).
Qed.

Lemma existsb_rev {A} (f : A -> bool) (l : list A) :
  existsb f (rev l) = existsb f l.
Proof.
  induction l as [|x l IH]; simpl; [done|].
  rewrite existsb_app. simpl. rewrite IH. by destruct (f x), (existsb f l).
Qed.

Lemma trim_units_spaceless (us : list (N * string)) :
  existsb unicode.IsSpace (List.map fst us) = false ->
  rev (drop_spaces (rev (drop_spaces us))) = us.
Proof.
  intros H. rewrite (drop_spaces_spaceless us H).
  rewrite drop_spaces_spaceless, rev_involutive; [done|].
  by rewrite map_rev, existsb_rev.
Qed.

Lemma TrimSpace_spaceless (s : string) : spaceless s -> TrimSpace s = s.
Proof.
  intros H. unfold TrimSpace. rewrite trim_units_spaceless by exact H.
  apply bytes_of_units.
Qed.

Lemma units_space (s : string) : units (String " " s) = (32, " ") :: units s.
Proof. unfold units. cbn. by destruct s. Qed.

Lemma TrimSpace_space_spaceless (s : string) :
  spaceless s -> TrimSpace (String " " s) = s.
Proof.
  intros H. unfold TrimSpace. rewrite units_space.
  change (drop_spaces ((32, " "%string) :: units s)) with (drop_spaces (units s)).
  rewrite trim_units_spaceless by exact H. apply bytes_of_units.
Qed.

Lemma list_ascii_of_string_append (s t : string) :
  list_ascii_of_string (s +:+ t) = list_ascii_of_string s ++ list_ascii_of_string t.
Proof.
  induction s as [|c s IH]; [done|]. rewrite append_String. simpl. by rewrite IH.
Qed.

Lemma In_bytes_of (c : ascii) (us : list (N * string)) :
  In c (list_ascii_of_string (bytes_of us)) <->
  exists u, In u us /\ In c (list_ascii_of_string u.2).
Proof.
  induction us as [|u us IH].
  - simpl. split; [done|]. by intros (? & [] & _).
  - rewrite bytes_of_cons, list_ascii_of_string_append, in_app_iff, IH. split.
    + intros [H|(u' & Hu' & H)]; [exists u; split; [by left|done]|].
      exists u'. split; [by right|done].
    + intros (u' & [<-|Hu'] & H); [by left|]. right. by exists u'.
Qed.

Lemma In_drop_spaces (u : N * string) (us : list (N * string)) :
  In u (drop_spaces us) -> In u us.
Proof.
  induction us as [|[r b] rest IH]; simpl; [done|].
  destruct (unicode.IsSpace r); [by right; apply IH|done].
Qed.

Lemma In_TrimSpace (c : ascii) (s : string) :
  In c (list_ascii_of_string (TrimSpace s)) -> In c (list_ascii_of_string s).
Proof.
  unfold TrimSpace. rewrite In_bytes_of. intros (u & Hu & Hc).
  rewrite <- (bytes_of_units s). apply In_bytes_of. exists u. split; [|done].
  apply In_drop_spaces, in_rev, In_drop_spaces, in_rev. exact Hu.
Qed.

Lemma commaless_TrimSpace (s : string) : commaless s -> commaless (TrimSpace s).
Proof. intros H Hin. by apply H, In_TrimSpace. Qed.

Lemma Split_nonempty (s : string) (sep : ascii) : Split s sep <> [].
Proof.
  destruct s as [|c t]; simpl; [done|].
  destruct (Ascii.eqb c sep); [done|]. by destruct (Split t sep).
Qed.

Lemma Split_commaless_pieces (s piece : string) :
  In piece (Split s ",") -> commaless piece.
Proof.
  revert piece. induction s as [|c t IH]; intros piece; simpl.
  - intros [<-|[]]. by intros [].
  - destruct (Ascii.eqb_spec c ",") as [->|Hc].
    + intros [<-|H]; [by intros []|by apply IH].
    + destruct (Split t ",") as [|p ps] eqn:Hsplit; [by destruct (Split_nonempty t ",")|].
      intros [<-|H]; [|apply IH; by right].
      intros [Heq|Hin]; [congruence|]. apply (IH p); [by left|done].
Qed.

Lemma Split_commaless (s : string) : commaless s -> Split s "," = [s].
Proof.
  induction s as [|c t IH]; intros H; simpl; [done|].
  destruct (Ascii.eqb_spec c ",") as [->|Hc]; [destruct H; by left|].
  rewrite IH; [done|]. intros Hin. apply H. by right.
Qed.

Lemma Split_append_comma (s t : string) :
  commaless s -> Split (s +:+ String "," t) "," = s :: Split t ",".
Proof.
  induction s as [|c s IH]; intros H; [done|].
  rewrite append_String. simpl.
  destruct (Ascii.eqb_spec c ",") as [->|Hc]; [destruct H; by left|].
  rewrite IH; [done|]. intros Hin. apply H. by right.
Qed.

Lemma Join_cons_cons (e e' : string) (es : list string) (sep : string) :
  Join (e :: e' :: es) sep = e +:+ sep +:+ Join (e' :: es) sep.
Proof. reflexivity. Qed.

Lemma Split_Join (e : string) (es : list string) :
  Forall commaless (e :: es) ->
  Split (Join (e :: es) ", ") "," = e :: List.map (String " ") es.
Proof.
  revert e. induction es as [|e' es IH]; intros e Hall.
  - apply Split_commaless. by inversion Hall.
  - inversion Hall as [|? ? He Hrest]; subst.
    rewrite Join_cons_cons.
    change (", " +:+ Join (e' :: es) ", ") with (String "," (String " " (Join (e' :: es) ", "))).
    rewrite Split_append_comma by done.
    change (Split (String " " ?s) ",") with
      (match Split s "," with p :: ps => String " " p :: ps | [] => [String " " ""] end).
    by rewrite IH.
Qed.







Lemma runes_cons (x : ascii) (s : string) :
  byte x < RuneSelf -> runes (String x s) = byte x :: runes s.
Proof.
  intros Hx. unfold runes, units. cbn [decode_from DecodeRuneInString].
  rewrite (proj2 (N.ltb_lt _ _) Hx). simpl. by destruct s.
Qed.






Lemma toSlice_loop_clean (str : string) (pieces buffer0 buffer : list string) :
  Forall commaless pieces -> Forall clean buffer0 ->
  toSlice_loop str pieces buffer0 = (buffer, None) ->
  Forall clean buffer.
Proof.
  revert buffer0. induction pieces as [|p ps IH]; intros buffer0 Hps Hbuf; simpl.
  - by intros [= <-].
  - inversion Hps as [|? ? Hp Hps']; subst.
    destruct (existsb unicode.IsSpace (runes (TrimSpace p))) eqn:Hspace; [done|].
    destruct (String.eqb_spec (TrimSpace p) "") as [Hempty|Hfull]; simpl.
    + by apply IH.
    + apply IH; [done|]. apply Forall_app. split; [done|].
      constructor; [|done]. split; [done|]. split; [done|]. by apply commaless_TrimSpace.
Qed.

Lemma toSlice_loop_Join (str : string) (es buffer0 : list string) :
  Forall clean es ->
  toSlice_loop str (List.map (String " ") es) buffer0 = (buffer0 ++ es, None).
Proof.
  revert buffer0. induction es as [|e es IH]; intros buffer0 Hes; simpl.
  - by rewrite app_nil_r.
  - inversion Hes as [|? ? (Hne & Hsp & Hco) Hes']; subst.
    rewrite (TrimSpace_space_spaceless e Hsp). rewrite Hsp.
    destruct (String.eqb_spec e "") as [->|_]; [done|]. simpl.
    rewrite IH by done. by rewrite <- app_assoc.
Qed.

Lemma toSlice_clean (str : string) (buffer : list string) :
  toSlice str = (buffer, None) -> buffer <> [] /\ Forall clean buffer.
Proof.
  unfold toSlice.
  destruct (toSlice_loop str (Split str ",") []) as [buf [err|]] eqn:Hloop; [done|].
  destruct buf as [|e es]; simpl; [done|]. intros [= <-]. split; [done|].
  apply (toSlice_loop_clean str (Split str ",") [] _); [|done|done].
  apply Forall_forall. intros p Hp. apply (Split_commaless_pieces str).
  by apply list_elem_of_In.
Qed.

Lemma toSlice_Join (buffer : list string) :
  buffer <> [] -> Forall clean buffer ->
  toSlice (Join buffer ", ") = (buffer, None).
Proof.
  destruct buffer as [|e es]; [done|]. intros _ Hall.
  inversion Hall as [|? ? (Hne & Hsp & Hco) Hes]; subst.
  unfold toSlice. rewrite Split_Join.
  - simpl. rewrite (TrimSpace_spaceless e Hsp). rewrite Hsp.
    destruct (String.eqb_spec e "") as [->|_]; [done|]. simpl.
    by rewrite toSlice_loop_Join.
  - eapply Forall_impl; [exact Hall|]. by intros ? (_ & _ & ?).
Qed.

Lemma toSlice_roundtrip (str : string) (buffer : list string) :
  toSlice str = (buffer, None) -> toSlice (Join buffer ", ") = (buffer, None).
Proof. intros H. apply toSlice_clean in H as [? ?]. by apply toSlice_Join. Qed.



End Strings.

(** ** The compiler *)

Section Compiler.

#[local] Arguments strings.Join : simpl never.

(** The shape of a regular-expression filter that is not the full-access
    one: the pattern parsed into a single element holding a
    regular-expression character, and the filter value and the raw form are
    that element after [trim_anchors]; or it parsed into two or more
    elements, and the filter value and the raw form are these elements,
    joined as they were parsed. *)
Lemma PrepareACL_regexp_shape
    (regexp_Compile : string -> option regexp.Error) (rawACL : string) (acl : ACL) :
  PrepareACL regexp_Compile rawACL = (acl, None) ->
  metricsql.IsRegexp (LabelFilter acl) = true ->
  Fullaccess acl = false ->
  exists buffer : list string,
    toSlice rawACL = (buffer, None)
    /\ ((exists e, buffer = [e]
                   /\ strings.ContainsAny e metachars = true
                   /\ metricsql.Value (LabelFilter acl) = trim_anchors e
                   /\ RawACL acl = trim_anchors e)
        \/ ((2 <= List.length buffer)%nat
            /\ metricsql.Value (LabelFilter acl) = strings.Join buffer "|"
            /\ RawACL acl = strings.Join buffer ", ")).
Proof.
  unfold PrepareACL.
  destruct (toSlice rawACL) as [buffer [err|]] eqn:Hslice; [done|].
  pose proof (toSlice_clean _ _ Hslice) as [Hne _].
  destruct (existsb (String.eqb ".*") buffer); [by intros [= <-]|].
  intros H Hregexp Hfull. exists buffer. split; [done|].
  destruct buffer as [|e [|e' es]]; [done| |].
  - left. exists e. split; [done|].
    destruct (strings.ContainsAny e metachars); simpl in H.
    + destruct (regexp_Compile (trim_anchors e)); [done|]. by injection H as <-.
    + injection H as <-. done.
  - right. simpl in H.
    destruct (regexp_Compile (strings.Join (e :: e' :: es) "|")); [done|].
    injection H as <-. simpl. split; [lia|done].
Qed.

(** The direction of the full-access invariant that holds: a compiled ACL
    with [Fullaccess] true is the canonical full-access ACL. *)
Lemma PrepareACL_fullaccess_canonical
    (regexp_Compile : string -> option regexp.Error) (rawACL : string) (acl : ACL) :
  PrepareACL regexp_Compile rawACL = (acl, None) ->
  Fullaccess acl = true ->
  acl = getFullaccessACL.
Proof.
  unfold PrepareACL.
  destruct (toSlice rawACL) as [buffer [err|]]; [done|].
  destruct (existsb (String.eqb ".*") buffer); [by intros [= <-]|].
  destruct buffer as [|e [|e' es]]; simpl; repeat case_match; try done;
    by intros [= <-].
Qed.

(** C2, at the failing input: the single element [^.*$] is not the literal
    [.*], so the search for the full-access element passes it by; the
    trimming of its anchors then leaves [.*], and the ACL returned has the
    label filter and the raw form of the full-access ACL with [Fullaccess]
    false. *)
Theorem C2_anchored_wildcard_is_not_fullaccess :
  PrepareACL regexp.Compile "^.*$"
  = ({| Fullaccess := false;
        LabelFilter := {| metricsql.Label := "namespace"; metricsql.Value := ".*";
                          metricsql.IsNegative := false; metricsql.IsRegexp := true |};
        RawACL := ".*" |}, None).
Proof. reflexivity. Qed.

(** C3, at the failing input: the pattern [^a$, b] parses into the two
    elements [^a$] and [b] and compiles to a regular-expression filter that
    is not the full-access one; its value is [^a$|b] and its raw form is
    [^a$, b], the anchors of the first element kept in both, where the
    elements with their anchors stripped give [a|b] and [a, b].  The same
    element alone, [^a$], compiles to the value and the raw form [a]: the
    anchors are trimmed in the single-element branch only. *)
Theorem C3_anchors_kept_with_several_elements :
  toSlice "^a$, b" = (["^a$"; "b"]%string, None)
  /\ PrepareACL regexp.Compile "^a$, b"
     = ({| Fullaccess := false;
           LabelFilter := {| metricsql.Label := "namespace";
                             metricsql.Value := "^a$|b";
                             metricsql.IsNegative := false;
                             metricsql.IsRegexp := true |};
           RawACL := "^a$, b" |}, None)
  /\ strings.Join (List.map trim_anchors ["^a$"; "b"]%string) "|" = "a|b"%string
  /\ strings.Join (List.map trim_anchors ["^a$"; "b"]%string) ", " = "a, b"%string
  /\ metricsql.Value (LabelFilter (PrepareACL regexp.Compile "^a$, b").1)
     <> strings.Join (List.map trim_anchors ["^a$"; "b"]%string) "|"
  /\ RawACL (PrepareACL regexp.Compile "^a$, b").1
     <> strings.Join (List.map trim_anchors ["^a$"; "b"]%string) ", "
  /\ PrepareACL regexp.Compile "^a$"
     = ({| Fullaccess := false;
           LabelFilter := {| metricsql.Label := "namespace";
                             metricsql.Value := "a";
                             metricsql.IsNegative := false;
                             metricsql.IsRegexp := true |};
           RawACL := "a" |}, None).
Proof. repeat split; try reflexivity; discriminate. Qed.






(** C5, as amended. Absorption: whenever [toSlice] accepts the raw pattern
    and the element sequence it returns contains [.*], at any position,
    [PrepareACL] returns the canonical full-access ACL.  No other element is
    looked at and [regexp.Compile] is never consulted: the result is the same
    whatever it would answer. *)
Theorem C5_absorption_after_parsing
    (regexp_Compile : string -> option regexp.Error) (rawACL : string)
    (buffer : list string) :
  toSlice rawACL = (buffer, None) ->
  In ".*"%string buffer ->
  PrepareACL regexp_Compile rawACL = (getFullaccessACL, None).
Proof.
  intros Hslice Hin. unfold PrepareACL. rewrite Hslice.
  assert (existsb (String.eqb ".*") buffer = true) as ->; [|done].
  apply existsb_exists. exists ".*"%string. split; [done|]. apply String.eqb_refl.
Qed.

Lemma C5_absorption_after_parsing_witness :
  PrepareACL (fun _ => Some {| regexp.Code := regexp.ErrInternalError; regexp.Expr := "" |})
    "min.*, [, .*, stolon"
  = (getFullaccessACL, None).
Proof.
  apply (C5_absorption_after_parsing _ "min.*, [, .*, stolon"
           ["min.*"; "["; ".*"; "stolon"]%string).
  - reflexivity.
  - simpl. tauto.
Defined.

(** C5, as stated, fails: the element sequence of ["a b, .*"] contains [.*],
    but [toSlice] rejects the pattern for the blank inside its first element
    before the search for [.*] starts, and [PrepareACL] returns that error. *)
Lemma C5_absorption_counterexample :
  In ".*"%string (elements "a b, .*")
  /\ PrepareACL regexp.Compile "a b, .*"
     = (ACL_zero, Some (ErrSpacesWithinElements "a b, .*")).
Proof. split; [vm_compute; tauto | reflexivity]. Qed.

End Compiler.

(** ** Loading the registry *)

Section Load.

Variable regexp_Compile : string -> option regexp.Error.

Lemma loadACL_loop_fails (aclYaml : list (string * string)) (aclMap : ACLMap) :
  (exists role rawACL,
     In (role, rawACL) aclYaml /\ (PrepareACL regexp_Compile rawACL).2 <> None) ->
  exists role rawACL err,
    In (role, rawACL) aclYaml
    /\ (PrepareACL regexp_Compile rawACL).2 = Some err
    /\ loadACL_loop regexp_Compile aclYaml aclMap = (∅, Some err).
Proof.
  revert aclMap.
  induction aclYaml as [|[role rawACL] rest IH]; intros aclMap (r & raw & Hin & Hfail).
  - destruct Hin.
  - simpl. destruct (PrepareACL regexp_Compile rawACL) as [acl [err|]] eqn:Hprep.
    + exists role, rawACL, err. rewrite Hprep. split; [by left | done].
    + destruct Hin as [[= <- <-]|Hin]; [by rewrite Hprep in Hfail|].
      destruct (IH (<[role:=acl]> aclMap)) as (r' & raw' & err & Hin' & Herr & Hloop).
      { exists r, raw. done. }
      exists r', raw', err. split; [by right | done].
Qed.

Lemma loadACL_loop_succeeds (aclYaml : list (string * string)) (aclMap : ACLMap) :
  List.NoDup aclYaml.*1 ->
  (forall role rawACL,
     In (role, rawACL) aclYaml -> (PrepareACL regexp_Compile rawACL).2 = None) ->
  exists loaded : ACLMap,
    loadACL_loop regexp_Compile aclYaml aclMap = (loaded, None)
    /\ (forall role rawACL, In (role, rawACL) aclYaml ->
          loaded !! role = Some (PrepareACL regexp_Compile rawACL).1)
    /\ (forall role, ~ In role aclYaml.*1 -> loaded !! role = aclMap !! role).
Proof.
  revert aclMap.
  induction aclYaml as [|[role rawACL] rest IH]; intros aclMap Hnodup Hok; simpl.
  - exists aclMap. split; [done|]. split; [intros ? ? []|done].
  - simpl in Hnodup. inversion Hnodup as [|? ? Hnotin Hrest]; subst.
    pose proof (Hok role rawACL (or_introl eq_refl)) as Hthis.
    destruct (PrepareACL regexp_Compile rawACL) as [acl [err|]] eqn:Hprep; [done|].
    destruct (IH (<[role:=acl]> aclMap) Hrest) as (loaded & Hloop & Hin & Hout).
    { intros r raw Hr. apply (Hok r raw). by right. }
    exists loaded. split; [done|]. split.
    + intros r raw [[= <- <-]|Hr].
      * rewrite Hprep. simpl. rewrite (Hout role Hnotin). apply lookup_insert_eq.
      * by apply Hin.
    + intros r Hr. rewrite Hout by (intros ?; apply Hr; by right).
      apply lookup_insert_ne. intros ->. apply Hr. by left.
Qed.

End Load.




(** ** The resolver *)

Section Resolver.

Variable regexp_Compile : string -> option regexp.Error.
Variable a : ACLMap.

Lemma getACL_loop_spec (oidcRoles roles assumedRoles : list string) :
  getACL_loop a oidcRoles roles assumedRoles =
  match first_fullaccess a oidcRoles with
  | Some acl => inl acl
  | None => inr (roles ++ known_roles a oidcRoles,
                 assumedRoles ++ unknown_roles a oidcRoles)
  end.
Proof.
  revert roles assumedRoles.
  induction oidcRoles as [|role rest IH]; intros roles assumedRoles; simpl.
  - by rewrite !app_nil_r.
  - unfold known_roles, unknown_roles, is_known in *. simpl.
    destruct (a !! role) as [acl|] eqn:Hrole; simpl.
    + destruct (Fullaccess acl); [done|].
      rewrite IH. destruct (first_fullaccess a rest); [done|].
      by rewrite <- app_assoc.
    + rewrite IH. destruct (first_fullaccess a rest); [done|].
      by rewrite <- app_assoc.
Qed.

Lemma getACL_spec (oidcRoles : list string) (assumedRolesEnabled : bool) :
  getACL regexp_Compile a oidcRoles assumedRolesEnabled =
  match first_fullaccess a oidcRoles with
  | Some acl => (acl, None)
  | None => resolve_working regexp_Compile a (working_list a oidcRoles assumedRolesEnabled)
  end.
Proof.
  unfold getACL. rewrite getACL_loop_spec.
  destruct (first_fullaccess a oidcRoles); [done|].
  unfold resolve_working, working_list. simpl.
  by destruct assumedRolesEnabled; rewrite ?app_nil_r.
Qed.

Lemma first_fullaccess_Some (roles : list string) (acl : ACL) :
  first_fullaccess a roles = Some acl ->
  Fullaccess acl = true /\ exists role, In role roles /\ a !! role = Some acl.
Proof.
  induction roles as [|role rest IH]; simpl; [done|].
  destruct (a !! role) as [acl'|] eqn:Hrole.
  - destruct (Fullaccess acl') eqn:Hfull.
    + intros [= <-]. eauto.
    + intros H. destruct (IH H) as (? & r & ? & ?). eauto.
  - intros H. destruct (IH H) as (? & r & ? & ?). eauto.
Qed.

Lemma first_fullaccess_None (roles : list string) (role : string) (acl : ACL) :
  first_fullaccess a roles = None -> In role roles -> a !! role = Some acl ->
  Fullaccess acl = false.
Proof.
  induction roles as [|r rest IH]; simpl; [done|].
  intros Hnone [->|Hin] Hrole.
  - rewrite Hrole in Hnone. by destruct (Fullaccess acl).
  - destruct (a !! r) as [acl'|]; [destruct (Fullaccess acl'); [done|]|]; eauto.
Qed.

Lemma first_fullaccess_known (roles : list string) :
  first_fullaccess a (known_roles a roles) = first_fullaccess a roles.
Proof.
  unfold known_roles, is_known.
  induction roles as [|role rest IH]; simpl; [done|].
  destruct (a !! role) as [acl|] eqn:Hrole; simpl; [|done].
  rewrite Hrole. by destruct (Fullaccess acl).
Qed.

End Resolver.

(** ** Duplicate roles *)

Section Dedup.

Variable a : ACLMap.

Lemma dedup_from_filter (P : string -> bool) (roles seen seen' : list string) :
  (forall role, P role = true ->
     existsb (String.eqb role) seen = existsb (String.eqb role) seen') ->
  List.filter P (dedup_from seen roles) = dedup_from seen' (List.filter P roles).
Proof.
  revert seen seen'.
  induction roles as [|role rest IH]; intros seen seen' Hseen; simpl; [done|].
  destruct (P role) eqn:HP; simpl.
  - rewrite <- (Hseen role HP).
    destruct (existsb (String.eqb role) seen) eqn:Hin; simpl.
    + by apply IH.
    + rewrite HP. f_equal. apply IH. intros r Hr. simpl. by rewrite (Hseen r Hr).
  - destruct (existsb (String.eqb role) seen) eqn:Hin; simpl.
    + by apply IH.
    + rewrite HP. apply IH. intros r Hr. simpl.
      destruct (String.eqb r role) eqn:Heq; simpl; [|by apply Hseen].
      apply String.eqb_eq in Heq. congruence.
Qed.

Lemma dedup_from_NoDup (roles seen : list string) :
  List.NoDup roles ->
  (forall role, In role roles -> existsb (String.eqb role) seen = false) ->
  dedup_from seen roles = roles.
Proof.
  revert seen.
  induction roles as [|role rest IH]; intros seen Hnodup Hseen; simpl; [done|].
  inversion Hnodup as [|? ? Hnotin Hrest]; subst.
  rewrite (Hseen role) by (by left). f_equal.
  apply IH; [done|]. intros r Hr. simpl.
  rewrite (Hseen r) by (by right).
  destruct (String.eqb r role) eqn:Heq; [|done].
  apply String.eqb_eq in Heq. congruence.
Qed.

Lemma dedup_filter_NoDup (P : string -> bool) (roles : list string) :
  List.NoDup (List.filter P roles) ->
  List.filter P (dedup roles) = List.filter P roles.
Proof.
  intros Hnodup. unfold dedup.
  rewrite (dedup_from_filter P roles [] []) by done.
  by apply dedup_from_NoDup.
Qed.

Lemma first_fullaccess_dedup_from (roles seen : list string) :
  (forall role acl, In role seen -> a !! role = Some acl -> Fullaccess acl = false) ->
  first_fullaccess a (dedup_from seen roles) = first_fullaccess a roles.
Proof.
  revert seen.
  induction roles as [|role rest IH]; intros seen Hseen; simpl; [done|].
  destruct (existsb (String.eqb role) seen) eqn:Hin; simpl.
  - apply existsb_exists in Hin as (r & Hr & Heq). apply String.eqb_eq in Heq. subst r.
    rewrite IH by done.
    destruct (a !! role) as [acl|] eqn:Hrole; [|done].
    by rewrite (Hseen role acl Hr Hrole).
  - destruct (a !! role) as [acl|] eqn:Hrole.
    + destruct (Fullaccess acl) eqn:Hfull; [done|].
      apply IH. intros r acl' [<-|Hr] Hr'; [congruence|eauto].
    + apply IH. intros r acl' [<-|Hr] Hr'; [congruence|eauto].
Qed.

End Dedup.

(** C1, as amended. Duplicates are tolerated where the resolver does not use
    them: if the list holds a known full-access role, or if no role of the
    working list (the known roles, followed by the unknown ones when assumed
    roles are enabled) occurs twice, in particular when assumed roles are
    disabled and only unknown roles are repeated, then [getACL] returns for
    the list what it returns for the list without its duplicates, the ACL
    and the error alike. *)
Theorem C1_duplicates_outside_the_working_list
    (regexp_Compile : string -> option regexp.Error) (a : ACLMap)
    (oidcRoles : list string) (assumedRolesEnabled : bool) :
  (exists role acl, In role oidcRoles /\ a !! role = Some acl /\ Fullaccess acl = true)
  \/ List.NoDup (working_list a oidcRoles assumedRolesEnabled) ->
  getACL regexp_Compile a oidcRoles assumedRolesEnabled
  = getACL regexp_Compile a (dedup oidcRoles) assumedRolesEnabled.
Proof.
  intros H. rewrite !getACL_spec. unfold dedup.
  rewrite first_fullaccess_dedup_from by (intros ? ? []).
  destruct (first_fullaccess a oidcRoles) as [full|] eqn:Hfirst; [done|].
  destruct H as [(role & acl & Hin & Hrole & Hfull)|Hnodup].
  - pose proof (first_fullaccess_None a _ _ _ Hfirst Hin Hrole). congruence.
  - f_equal. unfold working_list in *.
    apply NoDup_app_remove_r in Hnodup as Hknown.
    unfold known_roles, unknown_roles.
    fold (dedup oidcRoles). rewrite (dedup_filter_NoDup _ _ Hknown).
    destruct assumedRolesEnabled; [|done].
    apply NoDup_app_remove_l in Hnodup. by rewrite (dedup_filter_NoDup _ _ Hnodup).
Qed.

Lemma C1_duplicates_outside_the_working_list_witness :
  let a : ACLMap :=
    <[ "multiple-values"%string := (PrepareACL regexp.Compile "ku.*, min.*").1 ]>
      {[ "single-value"%string := (PrepareACL regexp.Compile "default").1 ]} in
  getACL regexp.Compile a
    ["x"; "single-value"; "x"; "multiple-values"; "y"; "x"]%string false
  = getACL regexp.Compile a
      (dedup ["x"; "single-value"; "x"; "multiple-values"; "y"; "x"]%string) false.
Proof.
  intros a.
  apply (C1_duplicates_outside_the_working_list regexp.Compile a
           ["x"; "single-value"; "x"; "multiple-values"; "y"; "x"]%string false).
  right. change (List.NoDup ["single-value"; "multiple-values"]%string).
  repeat constructor; simpl; intuition discriminate.
Defined.

(** C1, as stated, fails: a known role that is not full access and occurs
    twice contributes its raw pattern twice.  With the registry entry
    [single-value: default], the list with the role twice resolves to the
    regular expression [default|default], the list without the duplicate to
    the stored exact match [default]. *)
Lemma C1_duplicates_counterexample :
  let a : ACLMap :=
    {[ "single-value"%string := (PrepareACL regexp.Compile "default").1 ]} in
  let with_duplicate :=
    {| Fullaccess := false;
       LabelFilter := {| metricsql.Label := "namespace";
                         metricsql.Value := "default|default";
                         metricsql.IsNegative := false; metricsql.IsRegexp := true |};
       RawACL := "default, default" |} in
  let without_duplicate :=
    {| Fullaccess := false;
       LabelFilter := {| metricsql.Label := "namespace"; metricsql.Value := "default";
                         metricsql.IsNegative := false; metricsql.IsRegexp := false |};
       RawACL := "default" |} in
  dedup ["single-value"; "single-value"]%string = ["single-value"%string]
  /\ getACL regexp.Compile a ["single-value"; "single-value"]%string false
     = (with_duplicate, None)
  /\ getACL regexp.Compile a (dedup ["single-value"; "single-value"]%string) false
     = (without_duplicate, None)
  /\ with_duplicate <> without_duplicate.
Proof. repeat split; try reflexivity. discriminate. Qed.

(** ** Claims about the resolver *)

(** C7. Single-role fast path: when the working list (the known roles,
    followed by the unknown ones if assumed roles are enabled) is exactly one
    role, that role is a key of the registry and its stored ACL is not full
    access, [getACL] returns the stored ACL itself, whatever
    [regexp.Compile] would answer. *)
Theorem C7_single_role_fast_path
    (regexp_Compile : string -> option regexp.Error) (a : ACLMap)
    (oidcRoles : list string) (assumedRolesEnabled : bool) (role : string) (acl : ACL) :
  working_list a oidcRoles assumedRolesEnabled = [role] ->
  a !! role = Some acl ->
  Fullaccess acl = false ->
  getACL regexp_Compile a oidcRoles assumedRolesEnabled = (acl, None).
Proof.
  intros Hwork Hrole Hfull. rewrite getACL_spec.
  destruct (first_fullaccess a oidcRoles) as [full|] eqn:Hfirst.
  - exfalso.
    apply first_fullaccess_Some in Hfirst as (Htrue & r & Hin & Hr).
    assert (In r (working_list a oidcRoles assumedRolesEnabled)) as Hr_in.
    { unfold working_list, known_roles. apply in_or_app. left.
      apply filter_In. split; [done|]. unfold is_known. by rewrite Hr. }
    rewrite Hwork in Hr_in. destruct Hr_in as [<-|[]]. congruence.
  - rewrite Hwork. unfold resolve_working. simpl. by rewrite Hrole.
Qed.

Lemma C7_single_role_fast_path_witness :
  let a : ACLMap := {[ "single-value"%string := (PrepareACL regexp.Compile "default").1 ]} in
  getACL regexp.Compile a ["single-value"; "unknown-role"]%string false
  = ((PrepareACL regexp.Compile "default").1, None).
Proof.
  intros a.
  apply (C7_single_role_fast_path regexp.Compile a
           ["single-value"; "unknown-role"]%string false "single-value"%string);
    reflexivity.
Defined.

(** C8. Full-access short-circuit: if any role of the list, at any position,
    is a key of the registry whose stored ACL is full access, [getACL]
    succeeds with a full-access ACL, namely the stored ACL of a role of the
    list, whatever the other roles are and whether assumed roles are enabled
    or not. *)
Theorem C8_fullaccess_short_circuit
    (regexp_Compile : string -> option regexp.Error) (a : ACLMap)
    (oidcRoles : list string) (assumedRolesEnabled : bool) (role : string) (acl : ACL) :
  In role oidcRoles ->
  a !! role = Some acl ->
  Fullaccess acl = true ->
  exists (role' : string) (acl' : ACL),
    getACL regexp_Compile a oidcRoles assumedRolesEnabled = (acl', None)
    /\ Fullaccess acl' = true
    /\ In role' oidcRoles /\ a !! role' = Some acl'.
Proof.
  intros Hin Hrole Hfull. rewrite getACL_spec.
  destruct (first_fullaccess a oidcRoles) as [full|] eqn:Hfirst.
  - apply first_fullaccess_Some in Hfirst as (Htrue & r & Hr_in & Hr).
    exists r, full. done.
  - pose proof (first_fullaccess_None a _ _ _ Hfirst Hin Hrole). congruence.
Qed.

Lemma C8_fullaccess_short_circuit_witness :
  let a : ACLMap :=
    <[ "admin"%string := getFullaccessACL ]>
      {[ "single-value"%string := (PrepareACL regexp.Compile "default").1 ]} in
  exists (role' : string) (acl' : ACL),
    getACL regexp.Compile a ["single-value"; "nobody"; "admin"]%string true = (acl', None)
    /\ Fullaccess acl' = true
    /\ In role' ["single-value"; "nobody"; "admin"]%string /\ a !! role' = Some acl'.
Proof.
  intros a.
  apply (C8_fullaccess_short_circuit regexp.Compile a
           ["single-value"; "nobody"; "admin"]%string true "admin"%string getFullaccessACL).
  - simpl. tauto.
  - reflexivity.
  - reflexivity.
Defined.

(** C9. With assumed roles enabled an unknown role name becomes a pattern
    element as it is: when [.*] is not a key of the registry, resolving the
    single role [.*] succeeds with the canonical full-access ACL, whatever
    [regexp.Compile] would answer. *)
Theorem C9_assumed_role_fullaccess_token
    (regexp_Compile : string -> option regexp.Error) (a : ACLMap) :
  a !! ".*"%string = None ->
  getACL regexp_Compile a [".*"%string] true = (getFullaccessACL, None).
Proof.
  intros Hnone. unfold getACL. simpl. rewrite Hnone. simpl. rewrite Hnone.
  unfold rolesToRawACL. simpl. rewrite Hnone. reflexivity.
Qed.

Lemma C9_assumed_role_fullaccess_token_witness :
  getACL regexp.Compile
    ({[ "single-value"%string := (PrepareACL regexp.Compile "default").1 ]} : ACLMap)
    [".*"%string] true
  = (getFullaccessACL, None).
Proof.
  apply (C9_assumed_role_fullaccess_token regexp.Compile). reflexivity.
Defined.

(** C10. With assumed roles disabled, the result of [getACL] (the ACL and
    the error) depends on the known roles of the list only: two role lists
    with the same subsequence of registry keys resolve to the same result. *)
Theorem C10_unknown_roles_do_not_interfere
    (regexp_Compile : string -> option regexp.Error) (a : ACLMap)
    (roles1 roles2 : list string) :
  known_roles a roles1 = known_roles a roles2 ->
  getACL regexp_Compile a roles1 false = getACL regexp_Compile a roles2 false.
Proof.
  intros Hknown. rewrite !getACL_spec.
  rewrite <- (first_fullaccess_known a roles1), <- (first_fullaccess_known a roles2).
  unfold working_list. by rewrite Hknown.
Qed.

Lemma C10_unknown_roles_do_not_interfere_witness :
  let a : ACLMap :=
    <[ "multiple-values"%string := (PrepareACL regexp.Compile "ku.*, min.*").1 ]>
      {[ "single-value"%string := (PrepareACL regexp.Compile "default").1 ]} in
  getACL regexp.Compile a ["x"; "single-value"; "multiple-values"]%string false
  = getACL regexp.Compile a ["single-value"; "y"; "multiple-values"; ".*"]%string false.
Proof.
  intros a.
  apply (C10_unknown_roles_do_not_interfere regexp.Compile a
           ["x"; "single-value"; "multiple-values"]%string
           ["single-value"; "y"; "multiple-values"; ".*"]%string).
  reflexivity.
Defined.

(** * Further properties of the element parser *)

Section Parser.

Import utf8 strings.

Lemma toSlice_loop_spec (str : string) (pieces buffer : list string) :
  toSlice_loop str pieces buffer =
  if existsb has_inner_space pieces
  then ([], Some (ErrSpacesWithinElements str))
  else (buffer ++ List.filter (fun s => negb (String.eqb s ""))
                    (List.map TrimSpace pieces), None).
Proof.
  revert buffer. induction pieces as [|p ps IH]; intros buffer; simpl.
  - by rewrite app_nil_r.
  - unfold has_inner_space at 1.
    destruct (existsb unicode.IsSpace (runes (TrimSpace p))); [done|]. simpl.
    destruct (String.eqb (TrimSpace p) ""); simpl; rewrite IH;
      destruct (existsb has_inner_space ps); try done.
    by rewrite <- app_assoc.
Qed.

Lemma toSlice_spec (str : string) :
  toSlice str =
  if existsb has_inner_space (Split str ",")
  then ([], Some (ErrSpacesWithinElements str))
  else match elements str with
       | [] => ([], Some (ErrNoValidElement str))
       | _ :: _ => (elements str, None)
       end.
Proof.
  unfold toSlice. rewrite toSlice_loop_spec.
  destruct (existsb has_inner_space (Split str ",")); [done|].
  simpl. fold (elements str). by destruct (elements str).
Qed.

Lemma toSlice_elements (str : string) (buffer : list string) :
  toSlice str = (buffer, None) -> buffer = elements str.
Proof.
  rewrite toSlice_spec.
  destruct (existsb has_inner_space (Split str ",")); [done|].
  destruct (elements str); [done|]. by intros [= <-].
Qed.

Lemma TrimSpace_space (s : string) : TrimSpace (String " " s) = TrimSpace s.
Proof. unfold TrimSpace. by rewrite units_space. Qed.

Lemma Split_append_separator (s t : string) (sep : ascii) :
  Split (s +:+ String sep t) sep = Split s sep ++ Split t sep.
Proof.
  induction s as [|c s IH].
  - rewrite append_empty_l. simpl. by rewrite Ascii.eqb_refl.
  - rewrite append_String. simpl. destruct (Ascii.eqb c sep); [by rewrite IH|].
    rewrite IH. destruct (Split s sep) eqn:Hs; [by destruct (Split_nonempty s sep)|done].
Qed.

Lemma TrimSpace_Split_space (s : string) :
  List.map TrimSpace (Split (String " " s) ",") = List.map TrimSpace (Split s ",").
Proof.
  change (Split (String " " s) ",") with
    (match Split s "," with p :: ps => String " " p :: ps | [] => [String " " ""] end).
  destruct (Split s ",") as [|p ps] eqn:Hs; [by destruct (Split_nonempty s ",")|].
  simpl. by rewrite TrimSpace_space.
Qed.

Lemma pieces_Join (c : string) (cs : list string) :
  List.map TrimSpace (Split (Join (c :: cs) ", ") ",")
  = List.concat (List.map (fun c => List.map TrimSpace (Split c ",")) (c :: cs)).
Proof.
  revert c. induction cs as [|c' cs IH]; intros c.
  - simpl. by rewrite app_nil_r.
  - rewrite Join_cons_cons.
    change (", " +:+ Join (c' :: cs) ", ")
      with (String "," (String " " (Join (c' :: cs) ", "))).
    rewrite Split_append_separator, map_app, TrimSpace_Split_space, IH. done.
Qed.

Lemma existsb_has_inner_space (pieces : list string) :
  existsb has_inner_space pieces
  = existsb (fun q => existsb unicode.IsSpace (runes q)) (List.map TrimSpace pieces).
Proof. induction pieces as [|p ps IH]; simpl; [done|]. by rewrite IH. Qed.

Lemma existsb_concat {A} (f : A -> bool) (ls : list (list A)) :
  existsb f (List.concat ls) = existsb (existsb f) ls.
Proof.
  induction ls as [|l ls IH]; simpl; [done|]. by rewrite existsb_app, IH.
Qed.

Lemma filter_concat {A} (f : A -> bool) (ls : list (list A)) :
  List.filter f (List.concat ls) = List.concat (List.map (List.filter f) ls).
Proof.
  induction ls as [|l ls IH]; simpl; [done|]. by rewrite List.filter_app, IH.
Qed.

Lemma toSlice_parts (c : string) (b : list string) :
  toSlice c = (b, None) ->
  existsb has_inner_space (Split c ",") = false /\ elements c = b /\ b <> [].
Proof.
  rewrite toSlice_spec.
  destruct (existsb has_inner_space (Split c ",")); [done|].
  destruct (elements c); [done|]. by intros [= <-].
Qed.

Lemma toSlice_Join_concat (cs : list string) (bs : list (list string)) :
  cs <> [] ->
  Forall2 (fun c b => toSlice c = (b, None)) cs bs ->
  toSlice (Join cs ", ") = (List.concat bs, None).
Proof.
  intros Hne Hall. destruct cs as [|c cs]; [done|].
  assert (existsb has_inner_space (Split (Join (c :: cs) ", ") ",") = false
          /\ elements (Join (c :: cs) ", ") = List.concat bs) as [Hspace Helems].
  { unfold elements. rewrite existsb_has_inner_space, pieces_Join.
    rewrite existsb_concat, filter_concat. clear Hne.
    induction Hall as [|c0 b0 cs0 bs0 Hc _ IH]; [done|].
    apply toSlice_parts in Hc as (Hsp & Hel & _).
    destruct IH as [IH1 IH2]. simpl. split.
    - rewrite <- existsb_has_inner_space, Hsp. exact IH1.
    - fold (elements c0). by rewrite Hel, IH2. }
  rewrite toSlice_spec, Hspace, Helems.
  inversion Hall as [|? b ? bs' Hc _]; subst.
  apply toSlice_parts in Hc as (_ & _ & Hb).
  destruct b; [done|]. done.
Qed.

End Parser.

(** * Further properties of the compiler *)

Section Compiler2.

Variable regexp_Compile : string -> option regexp.Error.

#[local] Arguments strings.Join : simpl never.

Lemma existsb_eqb_In (x : string) (l : list string) :
  existsb (String.eqb x) l = true <-> In x l.
Proof.
  rewrite existsb_exists. split.
  - intros (y & Hy & Heq). apply String.eqb_eq in Heq. by subst.
  - intros H. exists x. split; [done|]. apply String.eqb_refl.
Qed.

Lemma PrepareACL_error_zero (rawACL : string) (acl : ACL) (err : error) :
  PrepareACL regexp_Compile rawACL = (acl, Some err) -> acl = ACL_zero.
Proof.
  unfold PrepareACL.
  destruct (toSlice rawACL) as [buffer [e|]]; [by intros [= <- _]|].
  destruct (existsb (String.eqb ".*") buffer); [done|].
  destruct buffer as [|e [|e' es]]; simpl; repeat case_match; try done;
    by intros [= <- _].
Qed.

Lemma PrepareACL_absorbs (rawACL : string) (buffer : list string) :
  toSlice rawACL = (buffer, None) -> In ".*"%string buffer ->
  PrepareACL regexp_Compile rawACL = (getFullaccessACL, None).
Proof.
  intros Hslice Hin. unfold PrepareACL. rewrite Hslice.
  by rewrite (proj2 (existsb_eqb_In _ _) Hin).
Qed.

Lemma PrepareACL_several_spec (rawACL : string) (buffer : list string) :
  toSlice rawACL = (buffer, None) ->
  (2 <= List.length buffer)%nat ->
  ~ In ".*"%string buffer ->
  PrepareACL regexp_Compile rawACL =
  match regexp_Compile (strings.Join buffer "|") with
  | Some err => (ACL_zero, Some (ErrRegexp err (strings.Join buffer "|") rawACL))
  | None => (restricted_ACL true (strings.Join buffer "|") (strings.Join buffer ", "), None)
  end.
Proof.
  intros Hslice Hlen Hnot. unfold PrepareACL. rewrite Hslice.
  destruct (existsb (String.eqb ".*") buffer) eqn:Hfull;
    [by apply existsb_eqb_In in Hfull|].
  destruct buffer as [|e [|e' es]]; simpl in Hlen; [lia|lia|]. done.
Qed.

Lemma PrepareACL_error_origin (rawACL : string) (acl : ACL) (err : error) :
  PrepareACL regexp_Compile rawACL = (acl, Some err) ->
  (toSlice rawACL).2 = Some err
  \/ exists cause value,
       err = ErrRegexp cause value rawACL /\ regexp_Compile value = Some cause.
Proof.
  unfold PrepareACL.
  destruct (toSlice rawACL) as [buffer [e|]]; [intros [= _ <-]; by left|].
  destruct (existsb (String.eqb ".*") buffer); [done|].
  intros Hprep. right. revert Hprep.
  destruct buffer as [|e [|e' es]]; simpl.
  - destruct (regexp_Compile (strings.Join [] "|")) eqn:Hrc; [|done].
    intros [= _ <-]. eauto.
  - destruct (strings.ContainsAny e metachars); simpl; [|done].
    destruct (regexp_Compile (trim_anchors e)) eqn:Hrc; [|done].
    intros [= _ <-]. eauto.
  - destruct (regexp_Compile (strings.Join (e :: e' :: es) "|")) eqn:Hrc; [|done].
    intros [= _ <-]. eauto.
Qed.

Lemma toSlice_error_kind (str : string) (buffer : list string) (err : error) :
  toSlice str = (buffer, Some err) ->
  err = ErrSpacesWithinElements str \/ err = ErrNoValidElement str.
Proof.
  rewrite toSlice_spec.
  destruct (existsb has_inner_space (strings.Split str ",")); [intros [= _ <-]; by left|].
  destruct (elements str); [intros [= _ <-]; by right|done].
Qed.

End Compiler2.

(** X1. [toSlice] in closed form: it fails with the white-space error as
    soon as some piece between the commas, once trimmed, still holds a
    white-space rune, wherever that piece stands; otherwise it fails with the
    no-element error when every piece trims to the empty string; otherwise it
    returns the trimmed pieces that are not empty, in their order. *)
Theorem X1_toSlice_closed_form (str : string) :
  toSlice str =
  if existsb has_inner_space (strings.Split str ",")
  then ([], Some (ErrSpacesWithinElements str))
  else match elements str with
       | [] => ([], Some (ErrNoValidElement str))
       | _ :: _ => (elements str, None)
       end.
Proof. apply toSlice_spec. Qed.

(** X2. Every list [toSlice] returns without an error is not empty, and each
    of its elements is not empty, holds no white-space rune and holds no
    comma. *)
Theorem X2_toSlice_elements_are_clean (str : string) (buffer : list string) :
  toSlice str = (buffer, None) -> buffer <> [] /\ Forall clean buffer.
Proof. apply toSlice_clean. Qed.

Lemma X2_toSlice_elements_are_clean_witness :
  ["ku.*"; "min.*"]%string <> [] /\ Forall clean ["ku.*"; "min.*"]%string.
Proof.
  apply (X2_toSlice_elements_are_clean " ku.*,, min.* ,"). reflexivity.
Defined.

(** X3. Parsing is a retraction of joining: the elements [toSlice] returns,
    joined by a comma and a blank, parse back to the same elements. *)
Theorem X3_toSlice_of_joined_elements (str : string) (buffer : list string) :
  toSlice str = (buffer, None) ->
  toSlice (strings.Join buffer ", ") = (buffer, None).
Proof. apply toSlice_roundtrip. Qed.

Lemma X3_toSlice_of_joined_elements_witness :
  toSlice (strings.Join ["ku.*"; "min.*"]%string ", ")
  = (["ku.*"; "min.*"]%string, None).
Proof.
  apply (X3_toSlice_of_joined_elements " ku.*,, min.* ,"). reflexivity.
Defined.

(** X4. Parsing distributes over the join of raw patterns: when every raw
    pattern of a list that is not empty parses, their join by a comma and a
    blank parses to the concatenation of their element lists. *)
Theorem X4_toSlice_of_joined_patterns (cs : list string) (bs : list (list string)) :
  cs <> [] ->
  Forall2 (fun c b => toSlice c = (b, None)) cs bs ->
  toSlice (strings.Join cs ", ") = (List.concat bs, None).
Proof. apply toSlice_Join_concat. Qed.

Lemma X4_toSlice_of_joined_patterns_witness :
  toSlice (strings.Join ["ku.*, min.*"; "default"]%string ", ")
  = (List.concat [["ku.*"; "min.*"]; ["default"]]%string, None).
Proof.
  apply (X4_toSlice_of_joined_patterns ["ku.*, min.*"; "default"]%string
           [["ku.*"; "min.*"]; ["default"]]%string); [done|].
  repeat constructor.
Defined.

(** X5. A compiled ACL is full access exactly when [.*] is one of the
    elements of the raw pattern, and it is then the canonical full-access
    ACL. *)
Theorem X5_PrepareACL_fullaccess_iff_wildcard_element
    (regexp_Compile : string -> option regexp.Error) (rawACL : string) (acl : ACL) :
  PrepareACL regexp_Compile rawACL = (acl, None) ->
  (Fullaccess acl = true <-> In ".*"%string (elements rawACL))
  /\ (Fullaccess acl = true -> acl = getFullaccessACL).
Proof.
  intros Hprep. split; [|by apply (PrepareACL_fullaccess_canonical _ _ _ Hprep)].
  revert Hprep. unfold PrepareACL.
  destruct (toSlice rawACL) as [buffer [err|]] eqn:Hslice; [done|].
  apply toSlice_elements in Hslice as <-.
  destruct (existsb (String.eqb ".*") buffer) eqn:Hfull.
  - intros [= <-]. by apply existsb_eqb_In in Hfull.
  - intros Hprep. split.
    + intros Htrue. exfalso. revert Hprep.
      destruct buffer as [|e [|e' es]]; simpl; repeat case_match; try done;
        intros [= <-]; done.
    + intros Hin. apply existsb_eqb_In in Hin. congruence.
Qed.

Lemma X5_PrepareACL_fullaccess_iff_wildcard_element_witness :
  (Fullaccess getFullaccessACL = true <-> In ".*"%string (elements "min.*, .*, stolon"))
  /\ (Fullaccess getFullaccessACL = true -> getFullaccessACL = getFullaccessACL).
Proof.
  apply (X5_PrepareACL_fullaccess_iff_wildcard_element regexp.Compile
           "min.*, .*, stolon" getFullaccessACL).
  reflexivity.
Defined.

#[local] Arguments strings.Join : simpl never.

(** X6. Invariants of a compiled ACL: its filter is on the label
    [namespace] and is never negative; when it is not full access and its
    filter is a regular expression, the value is one [regexp.Compile]
    accepted; and when its filter is an exact match, the pattern had a single
    element without regular-expression characters, which is both the value
    and the raw form. *)
Theorem X6_PrepareACL_invariants
    (regexp_Compile : string -> option regexp.Error) (rawACL : string) (acl : ACL) :
  PrepareACL regexp_Compile rawACL = (acl, None) ->
  metricsql.Label (LabelFilter acl) = "namespace"%string
  /\ metricsql.IsNegative (LabelFilter acl) = false
  /\ (Fullaccess acl = false -> metricsql.IsRegexp (LabelFilter acl) = true ->
      regexp_Compile (metricsql.Value (LabelFilter acl)) = None)
  /\ (metricsql.IsRegexp (LabelFilter acl) = false ->
      strings.ContainsAny (metricsql.Value (LabelFilter acl)) metachars = false
      /\ RawACL acl = metricsql.Value (LabelFilter acl)
      /\ elements rawACL = [metricsql.Value (LabelFilter acl)]).
Proof.
  unfold PrepareACL.
  destruct (toSlice rawACL) as [buffer [err|]] eqn:Hslice; [done|].
  apply toSlice_elements in Hslice as <-.
  destruct (existsb (String.eqb ".*") buffer); [by intros [= <-]|].
  destruct buffer as [|e [|e' es]]; simpl.
  - destruct (regexp_Compile (strings.Join [] "|")) eqn:Hrc; [done|].
    by intros [= <-].
  - destruct (strings.ContainsAny e metachars) eqn:Hmeta; simpl.
    + destruct (regexp_Compile (trim_anchors e)) eqn:Hrc; [done|]. by intros [= <-].
    + by intros [= <-].
  - destruct (regexp_Compile (strings.Join (e :: e' :: es) "|")) eqn:Hrc; [done|].
    by intros [= <-].
Qed.

Lemma X6_PrepareACL_invariants_witness :
  let acl := restricted_ACL true "min.*|stolon" "min.*, stolon" in
  metricsql.Label (LabelFilter acl) = "namespace"%string
  /\ metricsql.IsNegative (LabelFilter acl) = false
  /\ (Fullaccess acl = false -> metricsql.IsRegexp (LabelFilter acl) = true ->
      regexp.Compile (metricsql.Value (LabelFilter acl)) = None)
  /\ (metricsql.IsRegexp (LabelFilter acl) = false ->
      strings.ContainsAny (metricsql.Value (LabelFilter acl)) metachars = false
      /\ RawACL acl = metricsql.Value (LabelFilter acl)
      /\ elements "min.*, stolon" = [metricsql.Value (LabelFilter acl)]).
Proof.
  intros acl.
  apply (X6_PrepareACL_invariants regexp.Compile "min.*, stolon" acl). reflexivity.
Defined.

(** X7. When [PrepareACL] fails it returns the zero ACL, and its error is
    either the one [toSlice] gave for the raw pattern, or the error of
    [regexp.Compile] on the value it composed, together with that value and
    the raw pattern as it was passed in. *)
Theorem X7_PrepareACL_errors
    (regexp_Compile : string -> option regexp.Error) (rawACL : string) (acl : ACL)
    (err : error) :
  PrepareACL regexp_Compile rawACL = (acl, Some err) ->
  acl = ACL_zero
  /\ ((toSlice rawACL).2 = Some err
      \/ exists cause value,
           err = ErrRegexp cause value rawACL /\ regexp_Compile value = Some cause).
Proof.
  intros Hprep. split; [by apply (PrepareACL_error_zero _ _ _ _ Hprep)|].
  by apply (PrepareACL_error_origin _ _ _ _ Hprep).
Qed.

Lemma X7_PrepareACL_errors_witness :
  let cause := {| regexp.Code := regexp.ErrMissingBracket; regexp.Expr := "[a|b" |} in
  ACL_zero = ACL_zero
  /\ ((toSlice "[a, b").2 = Some (ErrRegexp cause "[a|b" "[a, b")
      \/ exists cause' value,
           ErrRegexp cause "[a|b" "[a, b" = ErrRegexp cause' value "[a, b"
           /\ regexp.Compile value = Some cause').
Proof.
  intros cause.
  apply (X7_PrepareACL_errors regexp.Compile "[a, b" ACL_zero
           (ErrRegexp cause "[a|b" "[a, b")).
  reflexivity.
Defined.

(** X8. Two raw patterns that parse to the same elements compile to the same
    ACL: blanks around the elements, empty pieces and the spelling of the
    separators do not matter. *)
Theorem X8_PrepareACL_depends_on_elements
    (regexp_Compile : string -> option regexp.Error) (rawACL1 rawACL2 : string)
    (buffer : list string) (acl : ACL) :
  toSlice rawACL1 = (buffer, None) ->
  toSlice rawACL2 = (buffer, None) ->
  PrepareACL regexp_Compile rawACL1 = (acl, None) ->
  PrepareACL regexp_Compile rawACL2 = (acl, None).
Proof.
  intros H1 H2. unfold PrepareACL. rewrite H1, H2.
  destruct (existsb (String.eqb ".*") buffer); [done|].
  destruct buffer as [|e [|e' es]]; simpl; repeat case_match; done.
Qed.

Lemma X8_PrepareACL_depends_on_elements_witness :
  PrepareACL regexp.Compile " min.* ,,stolon," 
  = (restricted_ACL true "min.*|stolon" "min.*, stolon", None).
Proof.
  apply (X8_PrepareACL_depends_on_elements regexp.Compile "min.*, stolon"
           " min.* ,,stolon," ["min.*"; "stolon"]%string); reflexivity.
Defined.

(** X9. Two or more elements, none of them [.*]: when [regexp.Compile]
    accepts the elements joined by a bar, [PrepareACL] returns the
    regular-expression filter with that value, and the raw form is the
    elements joined by a comma and a blank, in their order and with their
    repetitions. *)
Theorem X9_PrepareACL_several_elements
    (regexp_Compile : string -> option regexp.Error) (rawACL : string)
    (buffer : list string) :
  toSlice rawACL = (buffer, None) ->
  (2 <= List.length buffer)%nat ->
  ~ In ".*"%string buffer ->
  regexp_Compile (strings.Join buffer "|") = None ->
  PrepareACL regexp_Compile rawACL
  = (restricted_ACL true (strings.Join buffer "|") (strings.Join buffer ", "), None).
Proof.
  intros Hslice Hlen Hnot Hrc.
  rewrite (PrepareACL_several_spec _ _ _ Hslice Hlen Hnot). by rewrite Hrc.
Qed.

Lemma X9_PrepareACL_several_elements_witness :
  PrepareACL regexp.Compile "b,a , b"
  = (restricted_ACL true (strings.Join ["b"; "a"; "b"]%string "|")
       (strings.Join ["b"; "a"; "b"]%string ", "), None).
Proof.
  apply (X9_PrepareACL_several_elements regexp.Compile "b,a , b" ["b"; "a"; "b"]%string).
  - reflexivity.
  - simpl. lia.
  - simpl. intuition discriminate.
  - reflexivity.
Defined.

(** X10. A single element without regular-expression characters compiles to
    the exact-match filter on that element, and [regexp.Compile] is not
    consulted. *)
Theorem X10_PrepareACL_single_literal
    (regexp_Compile : string -> option regexp.Error) (rawACL e : string) :
  toSlice rawACL = ([e], None) ->
  strings.ContainsAny e metachars = false ->
  PrepareACL regexp_Compile rawACL = (restricted_ACL false e e, None).
Proof.
  intros Hslice Hmeta. unfold PrepareACL. rewrite Hslice.
  assert (existsb (String.eqb ".*") [e] = false) as ->.
  { cbn [existsb]. destruct (String.eqb_spec ".*" e) as [<-|_];
      [by vm_compute in Hmeta|done]. }
  by rewrite Hmeta.
Qed.

Lemma X10_PrepareACL_single_literal_witness :
  PrepareACL (fun _ => Some {| regexp.Code := regexp.ErrInternalError; regexp.Expr := "" |})
    " minio ,"
  = (restricted_ACL false "minio" "minio", None).
Proof.
  apply (X10_PrepareACL_single_literal _ " minio ," "minio"); reflexivity.
Defined.

(** * Further properties of the resolver *)

Section Resolver2.

Variable regexp_Compile : string -> option regexp.Error.
Variable a : ACLMap.

#[local] Arguments strings.Join : simpl never.

Lemma append_eq_empty (s t : string) : s +:+ t = ""%string -> s = ""%string /\ t = ""%string.
Proof. destruct s; [done|]. by rewrite append_String. Qed.

Lemma Join_eq_empty (l : list string) (sep : string) :
  sep <> ""%string ->
  strings.Join l sep = ""%string -> l = [] \/ l = [""%string].
Proof.
  intros Hsep. destruct l as [|x [|y l]]; [by left| |].
  - intros H. right. unfold strings.Join in H. simpl in H. by subst.
  - rewrite Join_cons_cons. intros H.
    apply append_eq_empty in H as [_ H]. apply append_eq_empty in H as [H _]. done.
Qed.

Lemma append_assoc (s t u : string) : (s +:+ t) +:+ u = s +:+ (t +:+ u).
Proof.
  induction s as [|c s IH]; [done|]. rewrite !append_String. by rewrite IH.
Qed.

Lemma Join_app (l1 l2 : list string) (sep : string) :
  l1 <> [] -> l2 <> [] ->
  strings.Join (l1 ++ l2) sep = strings.Join l1 sep +:+ sep +:+ strings.Join l2 sep.
Proof.
  intros H1 H2. induction l1 as [|x l1 IH]; [done|].
  destruct l1 as [|y l1].
  - destruct l2 as [|z l2]; [done|]. reflexivity.
  - change ((x :: y :: l1) ++ l2) with (x :: y :: (l1 ++ l2)).
    rewrite (Join_cons_cons x y (l1 ++ l2)).
    change (y :: (l1 ++ l2)) with ((y :: l1) ++ l2).
    rewrite IH by done. rewrite (Join_cons_cons x y l1).
    by rewrite !append_assoc.
Qed.

Lemma rolesToRawACL_loop_spec (roles rawACLs : list string) :
  rolesToRawACL_loop a roles rawACLs =
  match first_empty a roles with
  | Some role => ([], Some (ErrRoleEmptyRawACL role))
  | None => (rawACLs ++ List.map (contribution a) roles, None)
  end.
Proof.
  revert rawACLs. induction roles as [|role roles IH]; intros rawACLs; simpl.
  - by rewrite app_nil_r.
  - unfold contribution at 1. destruct (a !! role) as [acl|].
    + destruct (String.eqb (RawACL acl) ""); [done|].
      rewrite IH. destruct (first_empty a roles); [done|]. by rewrite <- app_assoc.
    + rewrite IH. destruct (first_empty a roles); [done|]. by rewrite <- app_assoc.
Qed.

Lemma rolesToRawACL_spec (roles : list string) :
  rolesToRawACL a roles =
  match first_empty a roles with
  | Some role => (""%string, Some (ErrRoleEmptyRawACL role))
  | None =>
    if String.eqb (strings.Join (List.map (contribution a) roles) ", ") ""
    then (""%string, Some ErrConstructedEmptyRawACL)
    else (strings.Join (List.map (contribution a) roles) ", ", None)
  end.
Proof.
  unfold rolesToRawACL. rewrite rolesToRawACL_loop_spec.
  by destruct (first_empty a roles).
Qed.

Lemma first_empty_None (roles : list string) :
  first_empty a roles = None <->
  forall role acl, In role roles -> a !! role = Some acl -> RawACL acl <> ""%string.
Proof.
  induction roles as [|role roles IH]; simpl; [by split|].
  destruct (a !! role) as [acl|] eqn:Hrole.
  - destruct (String.eqb_spec (RawACL acl) "") as [Hempty|Hfull].
    + split; [done|]. intros H. by destruct (H role acl (or_introl eq_refl) Hrole).
    + rewrite IH. split.
      * intros H r acl' [<-|Hin] Hr; [congruence|eauto].
      * intros H r acl' Hin Hr. eauto.
  - rewrite IH. split.
    + intros H r acl' [<-|Hin] Hr; [congruence|eauto].
    + intros H r acl' Hin Hr. eauto.
Qed.

Lemma first_empty_app (roles1 roles2 : list string) :
  first_empty a roles1 = None -> first_empty a roles2 = None ->
  first_empty a (roles1 ++ roles2) = None.
Proof.
  rewrite !first_empty_None. intros H1 H2 role acl Hin.
  apply in_app_or in Hin as [Hin|Hin]; eauto.
Qed.

Lemma toSlice_empty_fails (b : list string) : toSlice "" <> (b, None).
Proof. done. Qed.

Lemma contributions_parsed (w : list string) (bs : list (list string)) :
  Forall2 (fun role b => toSlice (contribution a role) = (b, None)) w bs ->
  first_empty a w = None
  /\ Forall2 (fun c b => toSlice c = (b, None)) (List.map (contribution a) w) bs
  /\ Forall (fun b => b <> []) bs.
Proof.
  induction 1 as [|role b w bs Hrole _ (IH1 & IH2 & IH3)]; simpl; [done|].
  split; [|split].
  - unfold contribution in Hrole. destruct (a !! role) as [acl|]; [|done].
    destruct (String.eqb_spec (RawACL acl) "") as [Hempty|_]; [|done].
    rewrite Hempty in Hrole. by destruct (toSlice_empty_fails b).
  - by constructor.
  - constructor; [|done]. by apply toSlice_parts in Hrole as (_ & _ & ?).
Qed.

Lemma rolesToRawACL_parsed (w : list string) (bs : list (list string)) :
  w <> [] ->
  Forall2 (fun role b => toSlice (contribution a role) = (b, None)) w bs ->
  rolesToRawACL a w = (strings.Join (List.map (contribution a) w) ", ", None)
  /\ toSlice (strings.Join (List.map (contribution a) w) ", ") = (List.concat bs, None).
Proof.
  intros Hne Hall. pose proof (contributions_parsed w bs Hall) as (Hfirst & Hparsed & _).
  assert (toSlice (strings.Join (List.map (contribution a) w) ", ")
          = (List.concat bs, None)) as Hslice.
  { apply toSlice_Join_concat; [by destruct w|done]. }
  split; [|done].
  rewrite rolesToRawACL_spec, Hfirst.
  destruct (String.eqb_spec (strings.Join (List.map (contribution a) w) ", ") "")
    as [Hempty|_]; [|done].
  rewrite Hempty in Hslice. by destruct (toSlice_empty_fails (List.concat bs)).
Qed.

Lemma length_concat_nonempty (bs : list (list string)) :
  Forall (fun b => b <> []) bs -> (List.length bs <= List.length (List.concat bs))%nat.
Proof.
  induction 1 as [|b bs Hb _ IH]; simpl; [done|].
  rewrite length_app. destruct b; [done|]. simpl. lia.
Qed.

Lemma resolve_working_composite (w : list string) (bs : list (list string)) :
  w <> [] ->
  match w with [role] => a !! role | _ => None end = None ->
  Forall2 (fun role b => toSlice (contribution a role) = (b, None)) w bs ->
  resolve_working regexp_Compile a w
  = PrepareACL regexp_Compile (strings.Join (List.map (contribution a) w) ", ").
Proof.
  intros Hne Hsingle Hall. unfold resolve_working.
  destruct w as [|role w]; [done|]. cbn [List.length Nat.eqb]. rewrite Hsingle.
  destruct (rolesToRawACL_parsed _ _ Hne Hall) as [-> _].
  destruct (PrepareACL _ _) as [acl [err|]] eqn:Hprep; [|done].
  by rewrite (PrepareACL_error_zero _ _ _ _ Hprep).
Qed.

End Resolver2.

(** X11. [rolesToRawACL] in closed form: it fails with the name of the first
    role of the list that is a key of the registry with an empty raw form;
    otherwise it joins, by a comma and a blank and in the order of the list,
    the raw form of every known role and the name of every unknown one, and
    fails when the result is the empty string. *)
Theorem X11_rolesToRawACL_closed_form (a : ACLMap) (roles : list string) :
  rolesToRawACL a roles =
  match first_empty a roles with
  | Some role => (""%string, Some (ErrRoleEmptyRawACL role))
  | None =>
    if String.eqb (strings.Join (List.map (contribution a) roles) ", ") ""
    then (""%string, Some ErrConstructedEmptyRawACL)
    else (strings.Join (List.map (contribution a) roles) ", ", None)
  end.
Proof. apply rolesToRawACL_spec. Qed.

(** X12. The error [constructed empty rawACL] arises in two cases only: the
    role list is empty, or it is the single role named by the empty string
    and that name is not a key of the registry. *)
Theorem X12_rolesToRawACL_constructed_empty (a : ACLMap) (roles : list string) :
  rolesToRawACL a roles = (""%string, Some ErrConstructedEmptyRawACL)
  <-> roles = [] \/ (roles = [""%string] /\ a !! ""%string = None).
Proof.
  rewrite rolesToRawACL_spec. split.
  - destruct (first_empty a roles) as [role|] eqn:Hfirst; [done|].
    destruct (String.eqb_spec (strings.Join (List.map (contribution a) roles) ", ") "")
      as [Hempty|_]; [|done].
    intros _. apply (Join_eq_empty _ ", " ltac:(done)) in Hempty as [Hnil|Hone].
    + left. by destruct roles.
    + destruct roles as [|role [|role' roles]]; [done| |done]. right.
      injection Hone as Hrole. unfold contribution in Hrole.
      destruct (a !! role) as [acl|] eqn:Hlookup; [|by subst].
      simpl in Hfirst. rewrite Hlookup, Hrole in Hfirst. done.
  - intros [->|[-> Hnone]]; [done|]. simpl. unfold contribution. by rewrite Hnone.
Qed.

(** X13. Composite raw patterns compose: when [rolesToRawACL] succeeds on
    two role lists, it succeeds on their concatenation, with the two results
    joined by a comma and a blank. *)
Theorem X13_rolesToRawACL_app (a : ACLMap) (roles1 roles2 : list string)
    (rawACL1 rawACL2 : string) :
  rolesToRawACL a roles1 = (rawACL1, None) ->
  rolesToRawACL a roles2 = (rawACL2, None) ->
  rolesToRawACL a (roles1 ++ roles2) = (rawACL1 +:+ ", " +:+ rawACL2, None).
Proof.
  rewrite !rolesToRawACL_spec.
  destruct (first_empty a roles1) eqn:H1; [done|].
  destruct (first_empty a roles2) eqn:H2; [done|].
  rewrite (first_empty_app a _ _ H1 H2).
  destruct (String.eqb_spec (strings.Join (List.map (contribution a) roles1) ", ") "")
    as [|Hne1]; [done|].
  destruct (String.eqb_spec (strings.Join (List.map (contribution a) roles2) ", ") "")
    as [|Hne2]; [done|].
  intros [= <-] [= <-]. rewrite map_app, Join_app.
  - match goal with
    | |- context [String.eqb ?x ""] => destruct (String.eqb_spec x "") as [Hempty|_]
    end; [|done].
    apply append_eq_empty in Hempty as [Hempty _]. done.
  - by destruct roles1.
  - by destruct roles2.
Qed.

Lemma X13_rolesToRawACL_app_witness :
  rolesToRawACL test_ACLMap (["multiple-values"; "unknown-role"] ++ ["single-value"])
  = ("ku.*, min.*, unknown-role" +:+ ", " +:+ "default", None).
Proof.
  apply (X13_rolesToRawACL_app test_ACLMap ["multiple-values"; "unknown-role"]%string
           ["single-value"%string]); reflexivity.
Defined.

(** X14. [getACL] fails closed: whenever it returns an error the ACL it
    returns is the zero ACL, and the error is [no matching roles found]
    exactly when the working list (the known roles, followed by the unknown
    ones when assumed roles are enabled) is empty; in particular unknown
    roles alone never resolve while assumed roles are disabled. *)
Theorem X14_getACL_fails_closed
    (regexp_Compile : string -> option regexp.Error) (a : ACLMap)
    (oidcRoles : list string) (assumedRolesEnabled : bool) :
  ((getACL regexp_Compile a oidcRoles assumedRolesEnabled).2 <> None ->
   (getACL regexp_Compile a oidcRoles assumedRolesEnabled).1 = ACL_zero)
  /\ ((getACL regexp_Compile a oidcRoles assumedRolesEnabled).2 = Some ErrNoMatchingRoles
      <-> working_list a oidcRoles assumedRolesEnabled = []).
Proof.
  split.
  - unfold getACL.
    destruct (getACL_loop a oidcRoles [] []) as [acl|[roles assumedRoles]]; [done|].
    cbv zeta. destruct (List.length _ =? 0)%nat; [done|].
    destruct (match _ with [role] => a !! role | _ => None end); [done|].
    destruct (rolesToRawACL a _) as [rawACL [err|]]; [done|].
    by destruct (PrepareACL regexp_Compile rawACL) as [acl [err|]].
  - rewrite getACL_spec. split.
    + destruct (first_fullaccess a oidcRoles); [done|].
      destruct (working_list a oidcRoles assumedRolesEnabled) as [|role w]; [done|].
      unfold resolve_working. cbn [List.length Nat.eqb].
      destruct (match w with [] => a !! role | _ :: _ => None end); [by simpl|].
      rewrite rolesToRawACL_spec.
      destruct (first_empty a (role :: w)); [by simpl|].
      destruct (String.eqb _ ""); [by simpl|].
      destruct (PrepareACL regexp_Compile _) as [acl [err|]] eqn:Hprep; [|done].
      simpl. intros [= ->].
      apply PrepareACL_error_origin in Hprep as [Hslice|(cause & value & ? & _)]; [|done].
      destruct (toSlice _) as [buffer err] eqn:Hs. simpl in Hslice. subst err.
      by apply toSlice_error_kind in Hs as [|].
    + intros Hempty.
      assert (known_roles a oidcRoles = []) as Hknown.
      { unfold working_list in Hempty. by apply app_eq_nil in Hempty as [? _]. }
      rewrite <- first_fullaccess_known, Hknown, Hempty. done.
Qed.

Lemma X14_getACL_fails_closed_witness :
  ((getACL regexp.Compile test_ACLMap ["unknown-role"] false).2 <> None ->
   (getACL regexp.Compile test_ACLMap ["unknown-role"] false).1 = ACL_zero)
  /\ ((getACL regexp.Compile test_ACLMap ["unknown-role"] false).2
      = Some ErrNoMatchingRoles
      <-> working_list test_ACLMap ["unknown-role"] false = []).
Proof.
  apply (X14_getACL_fails_closed regexp.Compile test_ACLMap ["unknown-role"] false).
Defined.

(** X15. With assumed roles enabled, a single role that is not a key of the
    registry (and is not the empty string) resolves to what [PrepareACL]
    makes of its name, the ACL and the error alike. *)
Theorem X15_getACL_single_assumed_role
    (regexp_Compile : string -> option regexp.Error) (a : ACLMap) (role : string) :
  a !! role = None ->
  role <> ""%string ->
  getACL regexp_Compile a [role] true = PrepareACL regexp_Compile role.
Proof.
  intros Hnone Hne. rewrite getACL_spec. simpl. rewrite Hnone.
  unfold working_list, known_roles, unknown_roles, is_known. simpl. rewrite Hnone. simpl.
  unfold resolve_working. cbn [List.length Nat.eqb]. rewrite Hnone.
  rewrite rolesToRawACL_spec. simpl. rewrite Hnone.
  unfold contribution. rewrite Hnone.
  change (strings.Join [role] ", ") with role.
  destruct (String.eqb_spec role "") as [|_]; [done|].
  destruct (PrepareACL regexp_Compile role) as [acl [err|]] eqn:Hprep; [|done].
  by rewrite (PrepareACL_error_zero _ _ _ _ Hprep).
Qed.

Lemma X15_getACL_single_assumed_role_witness :
  getACL regexp.Compile test_ACLMap ["kube-.*"] true = PrepareACL regexp.Compile "kube-.*".
Proof.
  apply (X15_getACL_single_assumed_role regexp.Compile test_ACLMap "kube-.*");
    [reflexivity|discriminate].
Defined.

(** X16. Several roles resolve to the union of their patterns: when no role
    of the list is a known full-access role, the working list holds two or
    more roles, the contribution of each (the raw form stored for a known
    role, the name of an assumed one) parses, no element is [.*] and
    [regexp.Compile] accepts the alternation, [getACL] returns the
    regular-expression filter whose value is all the elements joined by a
    bar, in the order of the working list, with the same elements joined by
    a comma and a blank as its raw form. *)
Theorem X16_getACL_union_of_roles
    (regexp_Compile : string -> option regexp.Error) (a : ACLMap)
    (oidcRoles : list string) (assumedRolesEnabled : bool) (bs : list (list string)) :
  first_fullaccess a oidcRoles = None ->
  (2 <= List.length (working_list a oidcRoles assumedRolesEnabled))%nat ->
  Forall2 (fun role b => toSlice (contribution a role) = (b, None))
    (working_list a oidcRoles assumedRolesEnabled) bs ->
  ~ In ".*"%string (List.concat bs) ->
  regexp_Compile (strings.Join (List.concat bs) "|") = None ->
  getACL regexp_Compile a oidcRoles assumedRolesEnabled
  = (restricted_ACL true (strings.Join (List.concat bs) "|")
       (strings.Join (List.concat bs) ", "), None).
Proof.
  intros Hfirst Hlen Hall Hnot Hrc. rewrite getACL_spec, Hfirst.
  generalize dependent (working_list a oidcRoles assumedRolesEnabled).
  intros w Hlen Hall.
  assert (w <> []) as Hne by (destruct w; [simpl in Hlen; lia|done]).
  rewrite (resolve_working_composite regexp_Compile a w bs Hne);
    [|destruct w as [|? [|? ?]]; simpl in Hlen; [lia|lia|done]|done].
  destruct (rolesToRawACL_parsed a w bs Hne Hall) as [_ Hslice].
  rewrite (PrepareACL_several_spec _ _ _ Hslice), ?Hrc; [done| |done].
  pose proof (contributions_parsed a w bs Hall) as (_ & _ & Hnonempty).
  apply length_concat_nonempty in Hnonempty.
  apply Forall2_length in Hall. lia.
Qed.

Lemma X16_getACL_union_of_roles_witness :
  getACL regexp.Compile test_ACLMap ["multiple-values"; "nobody"; "single-value"] true
  = (restricted_ACL true
       (strings.Join (List.concat [["ku.*"; "min.*"]; ["default"]; ["nobody"]]) "|")
       (strings.Join (List.concat [["ku.*"; "min.*"]; ["default"]; ["nobody"]]) ", "),
     None).
Proof.
  apply (X16_getACL_union_of_roles regexp.Compile test_ACLMap
           ["multiple-values"; "nobody"; "single-value"] true
           [["ku.*"; "min.*"]; ["default"]; ["nobody"]]).
  - reflexivity.
  - vm_compute. lia.
  - repeat constructor.
  - simpl. intuition discriminate.
  - reflexivity.
Defined.

Section Resolver3.

Variable regexp_Compile : string -> option regexp.Error.
Variable a : ACLMap.

Lemma contributions_parse (w : list string) :
  Forall (fun role => (toSlice (contribution a role)).2 = None) w ->
  exists bs, Forall2 (fun role b => toSlice (contribution a role) = (b, None)) w bs.
Proof.
  induction 1 as [|role w Hrole _ [bs IH]]; [by exists []|].
  destruct (toSlice (contribution a role)) as [b err] eqn:Hslice. simpl in Hrole. subst err.
  exists (b :: bs). by constructor.
Qed.

Lemma parsed_elements_in_concat (w : list string) (bs : list (list string))
    (role e : string) (b : list string) :
  Forall2 (fun role b => toSlice (contribution a role) = (b, None)) w bs ->
  In role w -> toSlice (contribution a role) = (b, None) -> In e b ->
  In e (List.concat bs).
Proof.
  induction 1 as [|role0 b0 w bs Hrole0 _ IH]; [done|].
  intros [->|Hin] Hslice He; simpl; apply in_or_app.
  - left. congruence.
  - right. by apply IH.
Qed.

End Resolver3.

(** X17. With assumed roles enabled, the role name [.*] grants full access
    wherever it stands in the list: when [.*] is not a key of the registry
    and the contribution of every role of the working list parses, [getACL]
    succeeds with a full-access ACL. *)
Theorem X17_getACL_assumed_wildcard
    (regexp_Compile : string -> option regexp.Error) (a : ACLMap)
    (oidcRoles : list string) :
  In ".*"%string oidcRoles ->
  a !! ".*"%string = None ->
  Forall (fun role => (toSlice (contribution a role)).2 = None)
    (working_list a oidcRoles true) ->
  exists acl, getACL regexp_Compile a oidcRoles true = (acl, None)
              /\ Fullaccess acl = true.
Proof.
  intros Hin Hnone Hparse. rewrite getACL_spec.
  destruct (first_fullaccess a oidcRoles) as [full|] eqn:Hfirst.
  { exists full. split; [done|]. by apply first_fullaccess_Some in Hfirst as [? _]. }
  assert (In ".*"%string (working_list a oidcRoles true)) as Hin_w.
  { unfold working_list, unknown_roles. apply in_or_app. right.
    apply filter_In. split; [done|]. unfold is_known. by rewrite Hnone. }
  generalize dependent (working_list a oidcRoles true). intros w Hparse Hin_w.
  destruct (contributions_parse a w Hparse) as [bs Hall].
  assert (w <> []) as Hne by (by destruct w).
  rewrite (resolve_working_composite regexp_Compile a w bs Hne); [| |done].
  - destruct (rolesToRawACL_parsed a w bs Hne Hall) as [_ Hslice].
    exists getFullaccessACL. split; [|done].
    apply (PrepareACL_absorbs _ _ _ Hslice).
    apply (parsed_elements_in_concat a w bs ".*" ".*" [".*"%string] Hall Hin_w).
    + unfold contribution. by rewrite Hnone.
    + by left.
  - destruct w as [|role [|role' w]]; [done| |done].
    destruct Hin_w as [->|[]]. done.
Qed.

Lemma X17_getACL_assumed_wildcard_witness :
  exists acl, getACL regexp.Compile test_ACLMap ["single-value"; "["; ".*"] true
              = (acl, None)
              /\ Fullaccess acl = true.
Proof.
  apply (X17_getACL_assumed_wildcard regexp.Compile test_ACLMap
           ["single-value"; "["; ".*"]).
  - simpl. tauto.
  - reflexivity.
  - repeat constructor.
Defined.

(** * Further properties of the loader *)

Section Load2.

Variable regexp_Compile : string -> option regexp.Error.

Lemma loadACL_loop_error (aclYaml : list (string * string)) (aclMap loaded : ACLMap)
    (err : error) :
  loadACL_loop regexp_Compile aclYaml aclMap = (loaded, Some err) ->
  loaded = ∅
  /\ exists role rawACL,
       In (role, rawACL) aclYaml /\ (PrepareACL regexp_Compile rawACL).2 = Some err.
Proof.
  revert aclMap. induction aclYaml as [|[role rawACL] rest IH]; intros aclMap; simpl; [done|].
  destruct (PrepareACL regexp_Compile rawACL) as [acl [e|]] eqn:Hprep.
  - intros [= <- <-]. split; [done|]. exists role, rawACL. rewrite Hprep. by split; [left|].
  - intros H. destruct (IH _ H) as (-> & r & raw & Hin & Herr).
    split; [done|]. exists r, raw. by split; [right|].
Qed.

Lemma loadACL_loop_ok (aclYaml : list (string * string)) (aclMap loaded : ACLMap) :
  loadACL_loop regexp_Compile aclYaml aclMap = (loaded, None) ->
  (forall role rawACL, In (role, rawACL) aclYaml ->
     (PrepareACL regexp_Compile rawACL).2 = None)
  /\ (forall role acl, loaded !! role = Some acl ->
        aclMap !! role = Some acl
        \/ exists rawACL, In (role, rawACL) aclYaml
                          /\ PrepareACL regexp_Compile rawACL = (acl, None)).
Proof.
  revert aclMap. induction aclYaml as [|[role rawACL] rest IH]; intros aclMap; simpl.
  - intros [= <-]. split; [intros ? ? []|]. by left.
  - destruct (PrepareACL regexp_Compile rawACL) as [acl [e|]] eqn:Hprep; [done|].
    intros H. destruct (IH _ H) as [Hok Hentries]. split.
    + intros r raw [[= <- <-]|Hin]; [by rewrite Hprep|by apply (Hok r raw)].
    + intros r acl' Hr. destruct (Hentries r acl' Hr) as [Hins|(raw & Hin & Hraw)].
      * destruct (decide (role = r)) as [<-|Hne].
        -- rewrite lookup_insert_eq in Hins. injection Hins as <-.
           right. exists rawACL. by split; [left|].
        -- rewrite lookup_insert_ne in Hins by done. by left.
      * right. exists raw. by split; [right|].
Qed.

Lemma loadACL_loop_permutation (aclYaml1 aclYaml2 : list (string * string))
    (loaded : ACLMap) :
  Permutation aclYaml1 aclYaml2 ->
  List.NoDup aclYaml1.*1 ->
  loadACL_loop regexp_Compile aclYaml1 ∅ = (loaded, None) ->
  loadACL_loop regexp_Compile aclYaml2 ∅ = (loaded, None).
Proof.
  intros Hperm Hnodup Hload.
  destruct (loadACL_loop_ok _ _ _ Hload) as [Hok _].
  destruct (loadACL_loop_succeeds regexp_Compile aclYaml1 ∅ Hnodup Hok)
    as (loaded1 & Hload1 & Hin1 & Hout1).
  rewrite Hload in Hload1. injection Hload1 as <-.
  assert (List.NoDup aclYaml2.*1) as Hnodup2.
  { eapply Permutation_NoDup; [|exact Hnodup]. by apply fmap_Permutation. }
  destruct (loadACL_loop_succeeds regexp_Compile aclYaml2 ∅ Hnodup2)
    as (loaded2 & Hload2 & Hin2 & Hout2).
  { intros role rawACL Hin. apply (Hok role rawACL).
    eapply Permutation_in; [symmetry; exact Hperm|done]. }
  rewrite Hload2. f_equal. apply map_eq. intros role.
  destruct (in_dec string_dec role aclYaml1.*1) as [Hrole|Hrole].
  - apply list_elem_of_In, list_elem_of_fmap in Hrole as ([r raw] & -> & Hin).
    apply list_elem_of_In in Hin. simpl.
    rewrite (Hin1 r raw Hin). apply Hin2.
    eapply Permutation_in; [exact Hperm|done].
  - rewrite (Hout1 role Hrole). apply Hout2. intros Hin. apply Hrole.
    eapply Permutation_in; [|exact Hin]. symmetry. by apply fmap_Permutation.
Qed.

End Load2.

(** * Empty raw forms *)

Section Anchors.

Import strings.

Lemma TrimRight_head (c x : ascii) (t : string) :
  (TrimRight (String c t) x = ""%string /\ c = x)
  \/ exists t', TrimRight (String c t) x = String c t'.
Proof.
  simpl. destruct (TrimRight t x) as [|d u]; [|right; eauto].
  destruct (Ascii.eqb_spec c x) as [->|_]; [by left|right; eauto].
Qed.

Lemma trim_anchors_empty_head (c : ascii) (t : string) :
  trim_anchors (String c t) = ""%string ->
  In c ["^"; "("; "$"; ")"]%char.
Proof.
  unfold trim_anchors. cbn [TrimLeft].
  destruct (Ascii.eqb_spec c "^") as [->|_]; [simpl; tauto|].
  cbn [TrimLeft].
  destruct (Ascii.eqb_spec c "(") as [->|_]; [simpl; tauto|].
  destruct (TrimRight_head c "$" t) as [[_ ->]|[t' ->]]; [simpl; tauto|].
  destruct (TrimRight_head c ")" t') as [[_ ->]|[t'' ->]]; [simpl; tauto|done].
Qed.

Lemma trim_anchors_empty_metachar (e : string) :
  e <> ""%string -> trim_anchors e = ""%string -> ContainsAny e metachars = true.
Proof.
  destruct e as [|c t]; [done|]. intros _ Hempty.
  apply trim_anchors_empty_head in Hempty.
  unfold ContainsAny.
  destruct Hempty as [<-|[<-|[<-|[<-|[]]]]]; by rewrite runes_cons.
Qed.

End Anchors.

(** X18. A raw pattern whose single element the four trims empty (leading
    [^]s, then leading opening parentheses, then trailing [$]s, then
    trailing closing parentheses, and nothing left: [^], [$], [()], [^()$],
    ...): when [regexp.Compile] accepts the empty expression, [PrepareACL]
    succeeds with a regular-expression filter whose value is empty and with
    an empty raw form. *)
Theorem X18_PrepareACL_anchors_only
    (regexp_Compile : string -> option regexp.Error) (rawACL e : string) :
  toSlice rawACL = ([e], None) ->
  trim_anchors e = ""%string ->
  regexp_Compile ""%string = None ->
  PrepareACL regexp_Compile rawACL = (restricted_ACL true "" "", None).
Proof.
  intros Hslice Hempty Hrc. unfold PrepareACL. rewrite Hslice.
  assert (existsb (String.eqb ".*") [e] = false) as ->.
  { cbn [existsb]. destruct (String.eqb_spec ".*" e) as [<-|_];
      [by vm_compute in Hempty|done]. }
  apply toSlice_clean in Hslice as [_ Hclean].
  apply Forall_inv in Hclean as [Hne _].
  rewrite (trim_anchors_empty_metachar e Hne Hempty). simpl.
  rewrite Hempty, Hrc. done.
Qed.

Lemma X18_PrepareACL_anchors_only_witness :
  PrepareACL regexp.Compile " ^()$ ," = (restricted_ACL true "" "", None).
Proof.
  apply (X18_PrepareACL_anchors_only regexp.Compile " ^()$ ," "^()$"); reflexivity.
Defined.

(** X19. The safeguard of [rolesToRawACL] is reached through [getACL]: when
    no role of the list is a known full-access role, the working list holds
    two or more roles and one of them is a key of the registry with an empty
    raw form, [getACL] fails with the zero ACL and the error that names the
    first such role of the working list. *)
Theorem X19_getACL_empty_raw_form
    (regexp_Compile : string -> option regexp.Error) (a : ACLMap)
    (oidcRoles : list string) (assumedRolesEnabled : bool) (role : string) :
  first_fullaccess a oidcRoles = None ->
  (2 <= List.length (working_list a oidcRoles assumedRolesEnabled))%nat ->
  first_empty a (working_list a oidcRoles assumedRolesEnabled) = Some role ->
  getACL regexp_Compile a oidcRoles assumedRolesEnabled
  = (ACL_zero, Some (ErrRoleEmptyRawACL role)).
Proof.
  intros Hfirst Hlen Hempty. rewrite getACL_spec, Hfirst.
  generalize dependent (working_list a oidcRoles assumedRolesEnabled).
  intros w Hlen Hempty. unfold resolve_working.
  destruct w as [|r [|r' w]]; simpl in Hlen; [lia|lia|].
  cbn [List.length Nat.eqb]. by rewrite rolesToRawACL_spec, Hempty.
Qed.

Lemma X19_getACL_empty_raw_form_witness :
  let a : ACLMap :=
    <[ "anchors"%string := (PrepareACL regexp.Compile "^()$").1 ]>
      {[ "single-value"%string := (PrepareACL regexp.Compile "default").1 ]} in
  getACL regexp.Compile a ["single-value"; "anchors"]%string false
  = (ACL_zero, Some (ErrRoleEmptyRawACL "anchors")).
Proof.
  intros a.
  apply (X19_getACL_empty_raw_form regexp.Compile a
           ["single-value"; "anchors"]%string false "anchors").
  - reflexivity.
  - vm_compute. lia.
  - reflexivity.
Defined.

(** * The loader and the resolver together *)

Section Origin.

Variable regexp_Compile : string -> option regexp.Error.
Variable a : ACLMap.

Lemma resolve_working_origin (w : list string) (acl : ACL) :
  resolve_working regexp_Compile a w = (acl, None) ->
  (exists role, In role w /\ a !! role = Some acl)
  \/ exists rawACL, PrepareACL regexp_Compile rawACL = (acl, None).
Proof.
  unfold resolve_working. destruct (List.length w =? 0)%nat; [done|].
  destruct (match w with [role] => a !! role | _ => None end) as [acl'|] eqn:Hsingle.
  - intros [= <-]. left. destruct w as [|role [|role' w]]; [done| |done].
    exists role. by split; [left|].
  - destruct (rolesToRawACL a w) as [rawACL [err|]]; [done|].
    destruct (PrepareACL regexp_Compile rawACL) as [acl' [err|]] eqn:Hprep; [done|].
    intros [= <-]. right. eauto.
Qed.

Lemma getACL_origin (oidcRoles : list string) (assumedRolesEnabled : bool) (acl : ACL) :
  getACL regexp_Compile a oidcRoles assumedRolesEnabled = (acl, None) ->
  (exists role, In role oidcRoles /\ a !! role = Some acl)
  \/ exists rawACL, PrepareACL regexp_Compile rawACL = (acl, None).
Proof.
  rewrite getACL_spec.
  destruct (first_fullaccess a oidcRoles) as [full|] eqn:Hfirst.
  - intros [= <-]. left. by apply first_fullaccess_Some in Hfirst as [_ ?].
  - intros H. apply resolve_working_origin in H as [(role & Hin & Hrole)|H]; [|by right].
    left. exists role. split; [|done].
    unfold working_list, known_roles, unknown_roles in Hin.
    destruct assumedRolesEnabled; rewrite ?app_nil_r in Hin.
    + apply in_app_or in Hin as [Hin|Hin]; by apply filter_In in Hin as [? _].
    + by apply filter_In in Hin as [? _].
Qed.

End Origin.

Section Load3.

Variable regexp_Compile : string -> option regexp.Error.
Variable os_ReadFile : string -> string * option string.
Variable yaml_Unmarshal : string -> list (string * string) * option string.

Lemma loadACL_ok (path : string) (loaded : ACLMap) :
  loadACL regexp_Compile os_ReadFile yaml_Unmarshal path = (loaded, None) ->
  exists yamlFile aclYaml,
    os_ReadFile path = (yamlFile, None)
    /\ yaml_Unmarshal yamlFile = (aclYaml, None)
    /\ loadACL_loop regexp_Compile aclYaml ∅ = (loaded, None).
Proof.
  unfold loadACL.
  destruct (os_ReadFile path) as [yamlFile [err|]]; [done|].
  destruct (yaml_Unmarshal yamlFile) as [aclYaml [err|]] eqn:Hyaml; [done|].
  intros Hloop. by exists yamlFile, aclYaml.
Qed.

Lemma loadACL_compiled (path : string) (loaded : ACLMap) (role : string) (acl : ACL) :
  loadACL regexp_Compile os_ReadFile yaml_Unmarshal path = (loaded, None) ->
  loaded !! role = Some acl ->
  exists rawACL, PrepareACL regexp_Compile rawACL = (acl, None).
Proof.
  intros Hload Hrole.
  apply loadACL_ok in Hload as (yamlFile & aclYaml & _ & _ & Hloop).
  apply loadACL_loop_ok in Hloop as [_ Hentries].
  destruct (Hentries role acl Hrole) as [Hempty|(rawACL & _ & Hprep)]; [done|eauto].
Qed.

Lemma PrepareACL_label (rawACL : string) (acl : ACL) :
  PrepareACL regexp_Compile rawACL = (acl, None) ->
  metricsql.Label (LabelFilter acl) = "namespace"%string
  /\ metricsql.IsNegative (LabelFilter acl) = false.
Proof.
  unfold PrepareACL.
  destruct (toSlice rawACL) as [buffer [err|]]; [done|].
  destruct (existsb (String.eqb ".*") buffer); [by intros [= <-]|].
  destruct buffer as [|e [|e' es]]; simpl.
  - destruct (regexp_Compile (strings.Join [] "|")); [done|]. by intros [= <-].
  - destruct (strings.ContainsAny e metachars); simpl.
    + destruct (regexp_Compile (trim_anchors e)); [done|]. by intros [= <-].
    + by intros [= <-].
  - destruct (regexp_Compile (strings.Join (e :: e' :: es) "|")); [done|].
    by intros [= <-].
Qed.

End Load3.

(** X20. [loadACL] fails closed: whenever it returns an error the registry
    it returns is empty, and the error is the one of reading the file, or
    the one of parsing it, or the error [PrepareACL] gave for the pattern of
    an entry of the file, passed on as it is. *)
Theorem X20_loadACL_fails_closed
    (regexp_Compile : string -> option regexp.Error)
    (os_ReadFile : string -> string * option string)
    (yaml_Unmarshal : string -> list (string * string) * option string)
    (path : string) (loaded : ACLMap) (err : error) :
  loadACL regexp_Compile os_ReadFile yaml_Unmarshal path = (loaded, Some err) ->
  loaded = ∅
  /\ ((exists cause, (os_ReadFile path).2 = Some cause /\ err = ErrReadFile cause)
      \/ (exists yamlFile cause,
            os_ReadFile path = (yamlFile, None)
            /\ (yaml_Unmarshal yamlFile).2 = Some cause /\ err = ErrUnmarshal cause)
      \/ (exists yamlFile aclYaml role rawACL,
            os_ReadFile path = (yamlFile, None)
            /\ yaml_Unmarshal yamlFile = (aclYaml, None)
            /\ In (role, rawACL) aclYaml
            /\ (PrepareACL regexp_Compile rawACL).2 = Some err)).
Proof.
  unfold loadACL.
  destruct (os_ReadFile path) as [yamlFile [cause|]].
  { intros [= <- <-]. split; [done|]. left. eauto. }
  destruct (yaml_Unmarshal yamlFile) as [aclYaml [cause|]] eqn:Hyaml.
  { intros [= <- <-]. split; [done|]. right. left. exists yamlFile, cause.
    by rewrite Hyaml. }
  intros Hloop. apply loadACL_loop_error in Hloop as (-> & role & rawACL & Hin & Herr).
  split; [done|]. right. right. exists yamlFile, aclYaml, role, rawACL. done.
Qed.

Lemma X20_loadACL_fails_closed_witness :
  let os_ReadFile := fun _ : string => (""%string, None) in
  let yaml_Unmarshal := fun _ : string => (bad_acl_yaml, @None string) in
  (∅ : ACLMap) = ∅
  /\ ((exists cause, (os_ReadFile "./acl.yaml"%string).2 = Some cause
                     /\ ErrSpacesWithinElements "a b" = ErrReadFile cause)
      \/ (exists yamlFile cause,
            os_ReadFile "./acl.yaml"%string = (yamlFile, None)
            /\ (yaml_Unmarshal yamlFile).2 = Some cause
            /\ ErrSpacesWithinElements "a b" = ErrUnmarshal cause)
      \/ (exists yamlFile aclYaml role rawACL,
            os_ReadFile "./acl.yaml"%string = (yamlFile, None)
            /\ yaml_Unmarshal yamlFile = (aclYaml, None)
            /\ In (role, rawACL) aclYaml
            /\ (PrepareACL regexp.Compile rawACL).2
               = Some (ErrSpacesWithinElements "a b"))).
Proof.
  intros os_ReadFile yaml_Unmarshal.
  apply (X20_loadACL_fails_closed regexp.Compile os_ReadFile yaml_Unmarshal
           "./acl.yaml" ∅ (ErrSpacesWithinElements "a b")).
  reflexivity.
Defined.

(** X21. The order in which the [range] loop of [loadACL] visits the entries
    of the file does not matter: for two visiting orders of the same
    entries, [loadACL] returns the same registry, and succeeds in one exactly
    when it succeeds in the other (only which error is reported, when
    several entries fail, may differ). *)
Theorem X21_loadACL_iteration_order
    (regexp_Compile : string -> option regexp.Error)
    (os_ReadFile : string -> string * option string)
    (yaml_Unmarshal1 yaml_Unmarshal2 : string -> list (string * string) * option string)
    (path yamlFile : string) (aclYaml1 aclYaml2 : list (string * string)) :
  os_ReadFile path = (yamlFile, None) ->
  yaml_Unmarshal1 yamlFile = (aclYaml1, None) ->
  yaml_Unmarshal2 yamlFile = (aclYaml2, None) ->
  Permutation aclYaml1 aclYaml2 ->
  List.NoDup aclYaml1.*1 ->
  (loadACL regexp_Compile os_ReadFile yaml_Unmarshal1 path).1
  = (loadACL regexp_Compile os_ReadFile yaml_Unmarshal2 path).1
  /\ ((loadACL regexp_Compile os_ReadFile yaml_Unmarshal1 path).2 = None
      <-> (loadACL regexp_Compile os_ReadFile yaml_Unmarshal2 path).2 = None).
Proof.
  intros Hread Hyaml1 Hyaml2 Hperm Hnodup. unfold loadACL.
  rewrite Hread, Hyaml1, Hyaml2.
  destruct (loadACL_loop regexp_Compile aclYaml1 ∅) as [loaded [err|]] eqn:Hloop.
  - apply loadACL_loop_error in Hloop as (-> & role & rawACL & Hin & Herr).
    destruct (loadACL_loop_fails regexp_Compile aclYaml2 ∅)
      as (role' & rawACL' & err' & _ & _ & ->); [|done].
    exists role, rawACL. split; [|by rewrite Herr].
    eapply Permutation_in; [exact Hperm|done].
  - by rewrite (loadACL_loop_permutation _ _ _ _ Hperm Hnodup Hloop).
Qed.

Lemma X21_loadACL_iteration_order_witness :
  (loadACL regexp.Compile (fun _ => (""%string, None)) (fun _ => (acl_yaml, None))
     "./acl.yaml").1
  = (loadACL regexp.Compile (fun _ => (""%string, None)) (fun _ => (rev acl_yaml, None))
       "./acl.yaml").1
  /\ ((loadACL regexp.Compile (fun _ => (""%string, None)) (fun _ => (acl_yaml, None))
         "./acl.yaml").2 = None
      <-> (loadACL regexp.Compile (fun _ => (""%string, None))
             (fun _ => (rev acl_yaml, None)) "./acl.yaml").2 = None).
Proof.
  apply (X21_loadACL_iteration_order regexp.Compile (fun _ => (""%string, None))
           (fun _ => (acl_yaml, None)) (fun _ => (rev acl_yaml, None))
           "./acl.yaml" "" acl_yaml (rev acl_yaml) eq_refl eq_refl eq_refl).
  - apply Permutation_rev.
  - repeat constructor; simpl; intuition discriminate.
Defined.

(** X22. On a loaded registry every ACL [getACL] returns is one
    [PrepareACL] compiled from some raw pattern: it filters on the label
    [namespace], it is not negative, and when it is full access it is the
    canonical full-access ACL. *)
Theorem X22_getACL_on_loaded_registry
    (regexp_Compile : string -> option regexp.Error)
    (os_ReadFile : string -> string * option string)
    (yaml_Unmarshal : string -> list (string * string) * option string)
    (path : string) (loaded : ACLMap)
    (oidcRoles : list string) (assumedRolesEnabled : bool) (acl : ACL) :
  loadACL regexp_Compile os_ReadFile yaml_Unmarshal path = (loaded, None) ->
  getACL regexp_Compile loaded oidcRoles assumedRolesEnabled = (acl, None) ->
  (exists rawACL, PrepareACL regexp_Compile rawACL = (acl, None))
  /\ metricsql.Label (LabelFilter acl) = "namespace"%string
  /\ metricsql.IsNegative (LabelFilter acl) = false
  /\ (Fullaccess acl = true -> acl = getFullaccessACL).
Proof.
  intros Hload Hget.
  assert (exists rawACL, PrepareACL regexp_Compile rawACL = (acl, None))
    as [rawACL Hprep].
  { apply getACL_origin in Hget as [(role & _ & Hrole)|H]; [|done].
    by apply (loadACL_compiled _ _ _ _ _ _ _ Hload Hrole). }
  split; [eauto|].
  destruct (PrepareACL_label _ _ _ Hprep) as [Hlabel Hsign].
  repeat split; [done|done|].
  by apply (PrepareACL_fullaccess_canonical _ _ _ Hprep).
Qed.

Lemma X22_getACL_on_loaded_registry_witness :
  let acl := restricted_ACL true "ku.*|min.*|default" "ku.*, min.*, default" in
  (exists rawACL, PrepareACL regexp.Compile rawACL = (acl, None))
  /\ metricsql.Label (LabelFilter acl) = "namespace"%string
  /\ metricsql.IsNegative (LabelFilter acl) = false
  /\ (Fullaccess acl = true -> acl = getFullaccessACL).
Proof.
  intros acl.
  apply (X22_getACL_on_loaded_registry regexp.Compile (fun _ => (""%string, None))
           (fun _ => (acl_yaml, None)) "./acl.yaml"
           (loadACL regexp.Compile (fun _ => (""%string, None))
              (fun _ => (acl_yaml, None)) "./acl.yaml").1
           ["multiple-values"; "unknown-role"; "single-value"]%string false acl);
    reflexivity.
Defined.

(** X23. Loading, then resolving a single role of the file: when the file
    loads, a role list that holds one role defined in the file resolves to
    the ACL compiled from the pattern of that role, whether assumed roles
    are enabled or not. *)
Theorem X23_load_then_resolve_one_role
    (regexp_Compile : string -> option regexp.Error)
    (os_ReadFile : string -> string * option string)
    (yaml_Unmarshal : string -> list (string * string) * option string)
    (path yamlFile : string) (aclYaml : list (string * string)) (loaded : ACLMap)
    (role rawACL : string) (assumedRolesEnabled : bool) :
  os_ReadFile path = (yamlFile, None) ->
  yaml_Unmarshal yamlFile = (aclYaml, None) ->
  List.NoDup aclYaml.*1 ->
  loadACL regexp_Compile os_ReadFile yaml_Unmarshal path = (loaded, None) ->
  In (role, rawACL) aclYaml ->
  getACL regexp_Compile loaded [role] assumedRolesEnabled
  = PrepareACL regexp_Compile rawACL.
Proof.
  intros Hread Hyaml Hnodup Hload Hin. unfold loadACL in Hload.
  rewrite Hread, Hyaml in Hload.
  destruct (loadACL_loop_ok _ _ _ _ Hload) as [Hok _].
  destruct (loadACL_loop_succeeds regexp_Compile aclYaml ∅ Hnodup Hok)
    as (loaded' & Hloop & Hstored & _).
  rewrite Hload in Hloop. injection Hloop as <-.
  pose proof (Hstored role rawACL Hin) as Hrole.
  pose proof (Hok role rawACL Hin) as Hnone.
  destruct (PrepareACL regexp_Compile rawACL) as [acl err] eqn:Hprep.
  simpl in Hrole, Hnone. subst err.
  rewrite getACL_spec. simpl. rewrite Hrole.
  destruct (Fullaccess acl) eqn:Hfull; [done|].
  unfold working_list, known_roles, unknown_roles, is_known. simpl. rewrite Hrole. simpl.
  destruct assumedRolesEnabled; simpl; unfold resolve_working; simpl; by rewrite Hrole.
Qed.

Lemma X23_load_then_resolve_one_role_witness :
  getACL regexp.Compile
    (loadACL regexp.Compile (fun _ => (""%string, None)) (fun _ => (acl_yaml, None))
       "./acl.yaml").1
    ["multiple-values"%string] true
  = PrepareACL regexp.Compile "ku.*, min.*".
Proof.
  apply (X23_load_then_resolve_one_role regexp.Compile (fun _ => (""%string, None))
           (fun _ => (acl_yaml, None)) "./acl.yaml" "" acl_yaml
           (loadACL regexp.Compile (fun _ => (""%string, None)) (fun _ => (acl_yaml, None))
              "./acl.yaml").1
           "multiple-values" "ku.*, min.*" true eq_refl eq_refl).
  - repeat constructor; simpl; intuition discriminate.
  - reflexivity.
  - simpl. tauto.
Defined.

(** * The order of the roles *)

Section Order.

Variable regexp_Compile : string -> option regexp.Error.
Variable a : ACLMap.

Lemma existsb_Permutation {A} (f : A -> bool) (l1 l2 : list A) :
  Permutation l1 l2 -> existsb f l1 = existsb f l2.
Proof.
  induction 1 as [|x l1 l2 _ IH|x y l|l1 l2 l3 _ IH12 _ IH23]; simpl.
  - done.
  - by rewrite IH.
  - by destruct (f x), (f y).
  - by rewrite IH12.
Qed.

Lemma existsb_filter {A} (p q : A -> bool) (l : list A) :
  existsb p (List.filter q l) = existsb (fun x => q x && p x) l.
Proof.
  induction l as [|x l IH]; simpl; [done|].
  destruct (q x); simpl; by rewrite IH.
Qed.

Lemma existsb_List_map {A B} (f : B -> bool) (g : A -> B) (l : list A) :
  existsb f (List.map g l) = existsb (fun x => f (g x)) l.
Proof. induction l as [|x l IH]; simpl; [done|]. by rewrite IH. Qed.

Lemma existsb_pointwise {A} (f g : A -> bool) (l : list A) :
  (forall x, f x = g x) -> existsb f l = existsb g l.
Proof. intros Hfg. induction l as [|x l IH]; simpl; [done|]. by rewrite Hfg, IH. Qed.

Lemma List_filter_Permutation {A} (f : A -> bool) (l1 l2 : list A) :
  Permutation l1 l2 -> Permutation (List.filter f l1) (List.filter f l2).
Proof.
  induction 1 as [|x l1 l2 _ IH|x y l|l1 l2 l3 _ IH12 _ IH23]; simpl.
  - done.
  - destruct (f x); [by constructor|done].
  - destruct (f x), (f y); try done. apply perm_swap.
  - by etransitivity.
Qed.

Lemma first_fullaccess_Permutation (roles1 roles2 : list string) :
  Permutation roles1 roles2 ->
  first_fullaccess a roles1 = None <-> first_fullaccess a roles2 = None.
Proof.
  induction 1 as [|x l1 l2 _ IH|x y l|l1 l2 l3 _ IH12 _ IH23]; simpl.
  - done.
  - destruct (a !! x) as [acl|]; [destruct (Fullaccess acl); [done|]|]; exact IH.
  - destruct (a !! x) as [aclx|], (a !! y) as [acly|];
      repeat match goal with |- context [Fullaccess ?acl] => destruct (Fullaccess acl) end;
      done.
  - by etransitivity.
Qed.

Lemma first_empty_Permutation (roles1 roles2 : list string) :
  Permutation roles1 roles2 ->
  first_empty a roles1 = None <-> first_empty a roles2 = None.
Proof.
  induction 1 as [|x l1 l2 _ IH|x y l|l1 l2 l3 _ IH12 _ IH23]; simpl.
  - done.
  - destruct (a !! x) as [acl|]; [destruct (String.eqb (RawACL acl) ""); [done|]|];
      exact IH.
  - destruct (a !! x) as [aclx|], (a !! y) as [acly|];
      repeat match goal with
             | |- context [String.eqb (RawACL ?acl) ""] =>
               destruct (String.eqb (RawACL acl) "")
             end; done.
  - by etransitivity.
Qed.

Lemma working_list_Permutation (roles1 roles2 : list string)
    (assumedRolesEnabled : bool) :
  Permutation roles1 roles2 ->
  Permutation (working_list a roles1 assumedRolesEnabled)
              (working_list a roles2 assumedRolesEnabled).
Proof.
  intros Hperm. unfold working_list, known_roles, unknown_roles.
  apply Permutation_app; [by apply List_filter_Permutation|].
  destruct assumedRolesEnabled; [by apply List_filter_Permutation|done].
Qed.

#[local] Arguments strings.Join : simpl never.

Lemma inner_space_Join (cs : list string) :
  cs <> [] ->
  existsb has_inner_space (strings.Split (strings.Join cs ", ") ",")
  = existsb (fun c => existsb has_inner_space (strings.Split c ",")) cs.
Proof.
  destruct cs as [|c cs]; [done|]. intros _.
  rewrite existsb_has_inner_space, pieces_Join, existsb_concat, existsb_List_map.
  apply existsb_pointwise. intros c0. by rewrite existsb_has_inner_space.
Qed.

Lemma wildcard_Join (cs : list string) :
  cs <> [] ->
  existsb (String.eqb ".*") (elements (strings.Join cs ", "))
  = existsb (fun c => existsb (String.eqb ".*") (elements c)) cs.
Proof.
  destruct cs as [|c cs]; [done|]. intros _.
  unfold elements at 1.
  by rewrite pieces_Join, filter_concat, existsb_concat, !existsb_List_map.
Qed.

Lemma PrepareACL_fullaccess_bool (rawACL : string) :
  Fullaccess (PrepareACL regexp_Compile rawACL).1
  = negb (existsb has_inner_space (strings.Split rawACL ","))
    && existsb (String.eqb ".*") (elements rawACL).
Proof.
  unfold PrepareACL. rewrite toSlice_spec.
  destruct (existsb has_inner_space (strings.Split rawACL ",")); [done|].
  destruct (elements rawACL) as [|e es]; [done|].
  destruct (existsb (String.eqb ".*") (e :: es)); [done|].
  destruct es as [|e' es]; simpl.
  - destruct (strings.ContainsAny e metachars); simpl; [|done].
    by destruct (regexp_Compile (trim_anchors e)).
  - by destruct (regexp_Compile (strings.Join (e :: e' :: es) "|")).
Qed.

Lemma resolve_working_fullaccess (w : list string) :
  (2 <= List.length w)%nat ->
  Fullaccess (resolve_working regexp_Compile a w).1
  = match first_empty a w with
    | Some _ => false
    | None =>
      negb (existsb (fun c => existsb has_inner_space (strings.Split c ","))
              (List.map (contribution a) w))
      && existsb (fun c => existsb (String.eqb ".*") (elements c))
           (List.map (contribution a) w)
    end.
Proof.
  intros Hlen. unfold resolve_working.
  destruct w as [|r [|r' w]]; simpl in Hlen; [lia|lia|].
  cbn [List.length Nat.eqb]. rewrite rolesToRawACL_spec.
  destruct (first_empty a (r :: r' :: w)); [done|].
  rewrite <- inner_space_Join, <- wildcard_Join by done.
  rewrite <- PrepareACL_fullaccess_bool.
  destruct (String.eqb_spec (strings.Join (List.map (contribution a) (r :: r' :: w)) ", ") "")
    as [->|_]; [done|].
  destruct (PrepareACL regexp_Compile _) as [acl [err|]] eqn:Hprep; [|done].
  by rewrite (PrepareACL_error_zero _ _ _ _ Hprep).
Qed.

Lemma resolve_working_Permutation (w1 w2 : list string) :
  Permutation w1 w2 ->
  Fullaccess (resolve_working regexp_Compile a w1).1
  = Fullaccess (resolve_working regexp_Compile a w2).1.
Proof.
  intros Hperm.
  destruct (le_lt_dec 2 (List.length w1)) as [Hlen|Hlen].
  - rewrite !resolve_working_fullaccess
      by (by rewrite <- ?(Permutation_length Hperm)).
    pose proof (first_empty_Permutation _ _ Hperm) as Hempty.
    destruct (first_empty a w1), (first_empty a w2);
      try done; try (by destruct Hempty as [H1 H2]; discriminate (H1 eq_refl) || discriminate (H2 eq_refl)).
    pose proof (Permutation_map (contribution a) Hperm) as Hmap.
    by rewrite !(existsb_Permutation _ _ _ Hmap).
  - destruct w1 as [|r [|r' w1]]; simpl in Hlen; [| |lia].
    + by apply Permutation_nil in Hperm as ->.
    + by apply Permutation_length_1_inv in Hperm as ->.
Qed.

Lemma unknown_roles_nil (roles : list string) :
  Forall (fun role => a !! role <> None) roles -> unknown_roles a roles = [].
Proof.
  unfold unknown_roles, is_known.
  induction 1 as [|role roles Hrole _ IH]; simpl; [done|].
  by destruct (a !! role).
Qed.

End Order.

(** X24. Whether [getACL] grants full access does not depend on the order
    of the roles in the token: for two orders of the same roles, the ACL
    returned (the zero ACL when it fails) is full access in one exactly when
    it is in the other. *)
Theorem X24_getACL_fullaccess_order
    (regexp_Compile : string -> option regexp.Error) (a : ACLMap)
    (oidcRoles1 oidcRoles2 : list string) (assumedRolesEnabled : bool) :
  Permutation oidcRoles1 oidcRoles2 ->
  Fullaccess (getACL regexp_Compile a oidcRoles1 assumedRolesEnabled).1
  = Fullaccess (getACL regexp_Compile a oidcRoles2 assumedRolesEnabled).1.
Proof.
  intros Hperm. rewrite !getACL_spec.
  pose proof (first_fullaccess_Permutation a _ _ Hperm) as Hfirst.
  destruct (first_fullaccess a oidcRoles1) as [full1|] eqn:H1,
           (first_fullaccess a oidcRoles2) as [full2|] eqn:H2.
  - apply first_fullaccess_Some in H1 as [H1 _].
    apply first_fullaccess_Some in H2 as [H2 _]. simpl. congruence.
  - destruct Hfirst as [_ Hfirst]. discriminate (Hfirst eq_refl).
  - destruct Hfirst as [Hfirst _]. discriminate (Hfirst eq_refl).
  - apply resolve_working_Permutation. by apply working_list_Permutation.
Qed.

Lemma X24_getACL_fullaccess_order_witness :
  Fullaccess (getACL regexp.Compile test_ACLMap
                ["single-value"; ".*"; "multiple-values"] true).1
  = Fullaccess (getACL regexp.Compile test_ACLMap
                  [".*"; "single-value"; "multiple-values"] true).1.
Proof.
  apply (X24_getACL_fullaccess_order regexp.Compile test_ACLMap
           ["single-value"; ".*"; "multiple-values"]
           [".*"; "single-value"; "multiple-values"] true).
  apply perm_swap.
Defined.

(** X25. The assumed-roles switch matters only for tokens with unknown
    roles: when every role of the list is a key of the registry, [getACL]
    returns the same ACL and the same error with assumed roles enabled and
    disabled. *)
Theorem X25_getACL_switch_without_unknown_roles
    (regexp_Compile : string -> option regexp.Error) (a : ACLMap)
    (oidcRoles : list string) :
  Forall (fun role => a !! role <> None) oidcRoles ->
  getACL regexp_Compile a oidcRoles true = getACL regexp_Compile a oidcRoles false.
Proof.
  intros Hknown. rewrite !getACL_spec. unfold working_list.
  by rewrite (unknown_roles_nil a _ Hknown).
Qed.

Lemma X25_getACL_switch_without_unknown_roles_witness :
  getACL regexp.Compile test_ACLMap ["single-value"; "multiple-values"] true
  = getACL regexp.Compile test_ACLMap ["single-value"; "multiple-values"] false.
Proof.
  apply (X25_getACL_switch_without_unknown_roles regexp.Compile test_ACLMap
           ["single-value"; "multiple-values"]).
  repeat constructor; discriminate.
Defined.
